(** * notify-matrix-join: membership deduplication and join reaction

    A shallow embedding of [notify-matrix-join.py]: the module-level
    registry state ([watched_room_ids], [to_invite_ids], [space_id]),
    the membership oracle ([room_members], [user_already_known]), the
    registry resolution ([populate_watched_room_ids]) and the event
    handler ([notify]), with the HTTP and SMTP collaborators taken as
    oracles and every outbound call recorded in a trace. *)

From Stdlib Require Import List String Ascii ZArith Bool Lia Permutation.
Import ListNotations.
Local Open Scope string_scope.
Local Open Scope Z_scope.
Local Open Scope list_scope.
Set Warnings "-register-all".

(** ** Python values

    What [json.loads] builds, and what the globals then hold.  A [PDict]
    lists its items in insertion order, keys distinct. *)

Inductive pyval : Type :=
| PNone
| PBool (b : bool)
| PInt (z : Z)
| PFloat (literal : string)
| PStr (s : string)
| PList (items : list pyval)
| PDict (items : list (string * pyval)).

(** The exceptions that the script and its libraries raise; all of them
    derive from Python's [Exception]. *)
Inductive exn : Type :=
| KeyError (key : string)
| TypeError
| ValueError
| JSONDecodeError
| ConnectionError
| Timeout
| SMTPException
| OSError.

Inductive outcome (A : Type) : Type :=
| Ret (a : A)
| Raise (e : exn).
Arguments Ret {A} a.
Arguments Raise {A} e.

Module Py.

(** [s == v] for a [str] [s]: only an equal [str] compares equal. *)
Definition str_eq (s : string) (v : pyval) : bool :=
  match v with
  | PStr s' => String.eqb s s'
  | _ => false
  end.

(** [e == v] where [e] is a [str] or [None]. *)
Definition opt_eq (e : option string) (v : pyval) : bool :=
  match e, v with
  | None, PNone => true
  | Some s, _ => str_eq s v
  | None, _ => false
  end.

(** [s in l] for a [str] [s] and a list [l] of values. *)
Definition str_in (s : string) (l : list pyval) : bool :=
  existsb (str_eq s) l.

(** [v in l] for a value [v] and a list [l] of [str]. *)
Definition in_strs (v : pyval) (l : list string) : bool :=
  existsb (fun s => str_eq s v) l.

Fixpoint assoc (k : string) (d : list (string * pyval)) : option pyval :=
  match d with
  | [] => None
  | (k', v) :: d' => if String.eqb k k' then Some v else assoc k d'
  end.

(** [v[k]] for a [str] key [k]. *)
Definition getitem (v : pyval) (k : string) : outcome pyval :=
  match v with
  | PDict d =>
      match assoc k d with
      | Some x => Ret x
      | None => Raise (KeyError k)
      end
  | _ => Raise TypeError
  end.

Fixpoint chars (s : string) : list pyval :=
  match s with
  | EmptyString => []
  | String c s' => PStr (String c EmptyString) :: chars s'
  end.

(** The items that [for x in v] goes through. *)
Definition iter (v : pyval) : outcome (list pyval) :=
  match v with
  | PList l => Ret l
  | PDict d => Ret (map (fun kv => PStr (fst kv)) d)
  | PStr s => Ret (chars s)
  | _ => Raise TypeError
  end.

Definition obind {A B} (o : outcome A) (k : A -> outcome B) : outcome B :=
  match o with
  | Ret a => k a
  | Raise e => Raise e
  end.

(** A list comprehension [[f x for x in l]]: stops at the first
    element on which [f] raises. *)
Fixpoint comprehension {A B} (f : A -> outcome B) (l : list A)
  : outcome (list B) :=
  match l with
  | [] => Ret []
  | x :: l' =>
      obind (f x) (fun y => obind (comprehension f l') (fun ys => Ret (y :: ys)))
  end.

End Py.

(** ** Configuration, registry state and collaborators *)

Record Config : Type := {
  space : string;
  watch : option (list string);
  invite : option (list string);
  email_subject : string;
  email_from : string;
  email_to : string;
  email_replyto : option string
}.

(** The module-level globals that [populate_watched_room_ids] assigns. *)
Record Globals : Type := {
  space_id : pyval;
  watched_room_ids : list pyval;
  to_invite_ids : list pyval
}.

Definition initial_globals : Globals :=
  {| space_id := PNone; watched_room_ids := []; to_invite_ids := [] |}.

Record Response : Type := {
  status_code : Z;
  (** what [json.loads(r.text)] gives for this response *)
  json : outcome pyval
}.

(** The three GET requests of the script, by the room id in the URL;
    [Members] asks with [membership=join]. *)
Inductive GetReq : Type :=
| JoinedRooms
| RoomName (room_id : pyval)
| Members (room_id : pyval).

(** The message by what the script puts into it.  [msg_replyto] is
    the value assigned to [msg['Reply-To']]: with [None] the library
    writes the header with the text [None]. *)
Record EmailMessage : Type := {
  msg_displayname : pyval;
  msg_user : string;
  msg_room_type : string;
  msg_room_name : string;
  msg_subject : string;
  msg_from : string;
  msg_to : string;
  msg_replyto : option string
}.

Inductive MailStep : Type :=
| Connect
| Ehlo (after_starttls : bool)
| StartTLS
| Login
| Sendmail (m : EmailMessage)
| Quit.

(** The calls into the email library that build the message: the
    body from the display name, user id, room type and room name, the
    four headers with the values that the configuration holds
    ([Reply-To] may be [None]), and the text that is handed to
    [sendmail].  [EmailMessage()] takes no argument and is no step
    of its own. *)
Inductive ComposeStep : Type :=
| SetContent (displayname : pyval) (user room_type room_name : string)
| SetHeader (name : string) (value : option string)
| AsString (m : EmailMessage).

(** The collaborators as seen from one handler run: the homeserver,
    the email library and the mail server.  A request either raises
    in the client library or returns; a call of the email library or
    of [smtplib] either raises or goes through. *)
Record Net : Type := {
  http_get : GetReq -> outcome Response;
  http_post_invite : pyval -> string -> outcome Response;
  compose : ComposeStep -> option exn;
  smtp : MailStep -> option exn
}.

Inductive LogMsg : Type :=
| LRoomMembers (e : exn)
| LJoinedRooms (e : exn)
| LSubscribed (room_name : pyval)
| LMembers (n : nat)
| LInvitationTarget
| LWatching (ids : list pyval)
| LNoticed (display_name room_id : string)
| LAlreadyKnown
| LNewMember (displayname : pyval) (user room_type room_name : string)
| LEmailSent
| LEmailException (e : exn).

Inductive Effect : Type :=
| ELog (m : LogMsg)
| EPrintCannotFind
| EGet (q : GetReq)
| EInvite (room_id : pyval) (user_id : string)
| ESmtp (s : MailStep).

(** ** The monad: globals, trace of effects, exceptions *)

Record run (A : Type) : Type := Run {
  st : Globals;
  tr : list Effect;
  out : outcome A
}.
Arguments Run {A} st tr out.
Arguments st {A} r.
Arguments tr {A} r.
Arguments out {A} r.

Definition M (A : Type) : Type := Globals -> run A.

Definition ret {A} (a : A) : M A := fun g => Run g [] (Ret a).

Definition raise {A} (e : exn) : M A := fun g => Run g [] (Raise e).

Definition bind {A B} (m : M A) (k : A -> M B) : M B :=
  fun g =>
    let r := m g in
    match out r with
    | Ret a => let r' := k a (st r) in Run (st r') (tr r ++ tr r') (out r')
    | Raise e => Run (st r) (tr r) (Raise e)
    end.

Definition emit (e : Effect) : M unit := fun g => Run g [e] (Ret tt).

Definition get : M Globals := fun g => Run g [] (Ret g).

Definition put (g' : Globals) : M unit := fun _ => Run g' [] (Ret tt).

Definition modify (f : Globals -> Globals) : M unit :=
  fun g => Run (f g) [] (Ret tt).

Definition lift {A} (o : outcome A) : M A :=
  match o with
  | Ret a => ret a
  | Raise e => raise e
  end.

(** [try: m  except Exception as e: h e] *)
Definition try_except {A} (m : M A) (h : exn -> M A) : M A :=
  fun g =>
    let r := m g in
    match out r with
    | Ret _ => r
    | Raise e => let r' := h e (st r) in Run (st r') (tr r ++ tr r') (out r')
    end.

Declare Scope py_scope.
Delimit Scope py_scope with py.
Notation "x <- m ;; k" := (bind m (fun x => k))
  (at level 61, m at next level, right associativity) : py_scope.
Notation "m ;; k" := (bind m (fun _ => k))
  (at level 61, right associativity) : py_scope.
Local Open Scope py_scope.

(** [log(...)]: a call of the script's logger. *)
Definition log (m : LogMsg) : M unit := emit (ELog m).

(** [for x in l: body x] *)
Fixpoint for_each {A} (l : list A) (body : A -> M unit) : M unit :=
  match l with
  | [] => ret tt
  | x :: l' => body x ;; for_each l' body
  end.

(** ** Trace projections *)

Definition invite_of (e : Effect) : option (pyval * string) :=
  match e with
  | EInvite r u => Some (r, u)
  | _ => None
  end.

Definition get_of (e : Effect) : option GetReq :=
  match e with
  | EGet q => Some q
  | _ => None
  end.

Definition sendmail_of (e : Effect) : option EmailMessage :=
  match e with
  | ESmtp (Sendmail m) => Some m
  | _ => None
  end.

Fixpoint project {A} (f : Effect -> option A) (t : list Effect) : list A :=
  match t with
  | [] => []
  | e :: t' =>
      match f e with
      | Some a => a :: project f t'
      | None => project f t'
      end
  end.

Definition invites_of : list Effect -> list (pyval * string) := project invite_of.
Definition gets_of : list Effect -> list GetReq := project get_of.
Definition emails_of : list Effect -> list EmailMessage := project sendmail_of.

(** An invite request or any step of the SMTP session. *)
Definition side_effect (e : Effect) : bool :=
  match e with
  | EInvite _ _ | ESmtp _ => true
  | _ => false
  end.

(** ** The script *)

Record MatrixRoom : Type := {
  room_id : string;
  display_name : string
}.

Record RoomMemberEvent : Type := {
  state_key : string;
  membership : string;
  prev_membership : option string;
  content : list (string * pyval)
}.

Section Script.

Variable config : Config.
Variable net : Net.

(** [watched_rooms = [config["space"],]], extended by a non-empty
    [config['watch']]. *)
Definition watched_rooms : list string :=
  match watch config with
  | Some (w :: ws) => [space config] ++ (w :: ws)
  | _ => [space config]
  end.

Definition to_invite : list string :=
  match invite config with
  | Some (i :: rest) => [] ++ (i :: rest)
  | _ => []
  end.

(** [s.get(url)] *)
Definition s_get (q : GetReq) : M Response :=
  emit (EGet q) ;; lift (http_get net q).

(** [s.post(.../invite..., json={'user_id': user})] *)
Definition s_post_invite (room : pyval) (user : string) : M Response :=
  emit (EInvite room user) ;; lift (http_post_invite net room user).

Definition chunk_user_ids (r : Response) : outcome (list pyval) :=
  Py.obind (json r) (fun v =>
  Py.obind (Py.getitem v "chunk") (fun c =>
  Py.obind (Py.iter c) (fun umaps =>
  Py.comprehension (fun umap => Py.getitem umap "user_id") umaps))).

Definition room_members (rid : pyval) : M (list pyval) :=
  r <- s_get (Members rid) ;;
  if negb (status_code r =? 200) then ret []
  else
    try_except (lift (chunk_user_ids r))
               (fun e => log (LRoomMembers e) ;; ret []).

Fixpoint user_already_known_loop (user_id : string) (exclude_room : option string)
         (rooms : list pyval) : M bool :=
  match rooms with
  | [] => ret false
  | rid :: rest =>
      if Py.opt_eq exclude_room rid then
        user_already_known_loop user_id exclude_room rest
      else
        ms <- room_members rid ;;
        if Py.str_in user_id ms then ret true
        else user_already_known_loop user_id exclude_room rest
  end.

Definition user_already_known (user_id : string) (exclude_room : option string)
  : M bool :=
  g <- get ;;
  user_already_known_loop user_id exclude_room (watched_room_ids g).

(** The assignments of [populate_watched_room_ids] to the globals. *)
Definition set_watched_room_ids (ids : list pyval) (g : Globals) : Globals :=
  {| space_id := space_id g; watched_room_ids := ids;
     to_invite_ids := to_invite_ids g |}.

Definition set_to_invite_ids (ids : list pyval) (g : Globals) : Globals :=
  {| space_id := space_id g; watched_room_ids := watched_room_ids g;
     to_invite_ids := ids |}.

Definition set_space_id (rid : pyval) (g : Globals) : Globals :=
  {| space_id := rid; watched_room_ids := watched_room_ids g;
     to_invite_ids := to_invite_ids g |}.

Definition append_watched (rid : pyval) (g : Globals) : Globals :=
  set_watched_room_ids (watched_room_ids g ++ [rid]) g.

Definition append_to_invite (rid : pyval) (g : Globals) : Globals :=
  set_to_invite_ids (to_invite_ids g ++ [rid]) g.

(** The body of [for room_id in room_ids]; [continue] ends it. *)
Definition populate_room (rid : pyval) : M unit :=
  r <- s_get (RoomName rid) ;;
  if negb (status_code r =? 200) then ret tt
  else
    room_name <- lift (Py.obind (json r) (fun v => Py.getitem v "name")) ;;
    log (LSubscribed room_name) ;;
    (if Py.in_strs room_name watched_rooms then
       ms <- room_members rid ;;
       log (LMembers (List.length ms)) ;;
       modify (append_watched rid)
     else ret tt) ;;
    (if Py.str_eq (space config) room_name then modify (set_space_id rid)
     else ret tt) ;;
    (if Py.in_strs room_name to_invite then
       log LInvitationTarget ;;
       modify (append_to_invite rid)
     else ret tt).

(** Returns [[]] on the two early exits and [None] at the end. *)
Definition populate_watched_room_ids : M pyval :=
  r <- s_get JoinedRooms ;;
  if negb (status_code r =? 200) then ret (PList [])
  else
    parsed <- try_except
                (ids <- lift (Py.obind (json r)
                                (fun v => Py.getitem v "joined_rooms")) ;;
                 ret (Some ids))
                (fun e => log (LJoinedRooms e) ;; ret None) ;;
    match parsed with
    | None => ret (PList [])
    | Some room_ids =>
        modify (set_watched_room_ids []) ;;
        modify (set_to_invite_ids []) ;;
        rooms <- lift (Py.iter room_ids) ;;
        for_each rooms populate_room ;;
        g <- get ;;
        (if negb (Nat.eqb (List.length watched_rooms) (List.length (watched_room_ids g)))
         then emit EPrintCannotFind else ret tt) ;;
        ret PNone
    end.

(** The [on_startup] listener. *)
Definition room_joined (rid : string) : M unit :=
  g <- get ;;
  if Nat.eqb (List.length (watched_room_ids g)) 0 then
    populate_watched_room_ids ;;
    g' <- get ;;
    log (LWatching (watched_room_ids g'))
  else ret tt.

(** [event.membership != event.prev_membership]; the previous state
    may be [None]. *)
Definition differs (m : string) (prev : option string) : bool :=
  match prev with
  | Some p => negb (String.eqb m p)
  | None => true
  end.

Definition is_join (event : RoomMemberEvent) : bool :=
  String.eqb (membership event) "join"
  && differs (membership event) (prev_membership event).

(** Lines 187-188: [for to_invite_id in to_invite_ids: r = s.post(...)]. *)
Definition invite_loop (user : string) (ids : list pyval) : M unit :=
  for_each ids (fun to_invite_id => s_post_invite to_invite_id user ;; ret tt).

(** Lines 182-188: the invitations, giving [room_type]. *)
Definition invite_phase (room : MatrixRoom) (event : RoomMemberEvent)
  : M string :=
  g <- get ;;
  if Py.str_eq (room_id room) (space_id g) then
    invite_loop (state_key event) (to_invite_ids g) ;;
    ret "space"
  else ret "room".

Definition smtp_call (s : MailStep) : M unit :=
  emit (ESmtp s) ;;
  match smtp net s with
  | Some e => raise e
  | None => ret tt
  end.

(** A call into the email library. *)
Definition compose_call (c : ComposeStep) : M unit :=
  match compose net c with
  | Some e => raise e
  | None => ret tt
  end.

(** The body of the [try] of lines 192-206. *)
Definition send_email (room : MatrixRoom) (event : RoomMemberEvent)
           (room_type : string) : M unit :=
  dn <- lift (Py.getitem (PDict (content event)) "displayname") ;;
  log (LNewMember dn (state_key event) room_type (display_name room)) ;;
  compose_call (SetContent dn (state_key event) room_type (display_name room)) ;;
  compose_call (SetHeader "Subject" (Some (email_subject config))) ;;
  compose_call (SetHeader "From" (Some (email_from config))) ;;
  compose_call (SetHeader "To" (Some (email_to config))) ;;
  compose_call (SetHeader "Reply-To" (email_replyto config)) ;;
  let msg := {| msg_displayname := dn;
                msg_user := state_key event;
                msg_room_type := room_type;
                msg_room_name := display_name room;
                msg_subject := email_subject config;
                msg_from := email_from config;
                msg_to := email_to config;
                msg_replyto := email_replyto config |} in
  smtp_call Connect ;;
  smtp_call (Ehlo false) ;;
  smtp_call StartTLS ;;
  smtp_call (Ehlo true) ;;
  smtp_call Login ;;
  compose_call (AsString msg) ;;
  smtp_call (Sendmail msg) ;;
  log LEmailSent ;;
  smtp_call Quit.

(** Lines 190-209. *)
Definition email_phase (room : MatrixRoom) (event : RoomMemberEvent)
           (room_type : string) : M unit :=
  if existsb (String.eqb (display_name room)) watched_rooms then
    try_except (send_email room event room_type)
               (fun e => log (LEmailException e))
  else ret tt.

(** The [else] branch of the handler. *)
Definition new_member (room : MatrixRoom) (event : RoomMemberEvent) : M unit :=
  room_type <- invite_phase room event ;;
  email_phase room event room_type.

Definition notify (room : MatrixRoom) (event : RoomMemberEvent) : M unit :=
  if is_join event then
    log (LNoticed (display_name room) (room_id room)) ;;
    known <- user_already_known (state_key event) (Some (room_id room)) ;;
    if known then log LAlreadyKnown
    else new_member room event
  else ret tt.

End Script.

(** One run of the listener: the events in the order delivered, each
    with the servers as they are when it is handled.  An exception that
    leaves the handler ends the run. *)
Fixpoint run_events (config : Config)
         (events : list (Net * MatrixRoom * RoomMemberEvent)) : M unit :=
  match events with
  | [] => ret tt
  | (net, room, event) :: rest =>
      notify config net room event ;; run_events config rest
  end.

(** ** Vocabulary of the statements *)

Section Vocabulary.

Variable config : Config.
Variable net : Net.

(** The homeserver answers the request: the client library returns a
    response, of whatever status, instead of raising. *)
Definition answers (q : GetReq) : Prop :=
  exists r, http_get net q = Ret r.

Definition invite_answers (user : string) (rid : pyval) : Prop :=
  exists r, http_post_invite net rid user = Ret r.

(** [user] is in the member list that [room_members rid] returns. *)
Definition listed (user : string) (rid : pyval) (g : Globals) : Prop :=
  exists ms, out (room_members net rid g) = Ret ms /\ Py.str_in user ms = true.

(** The name that the [m.room.name] query of the resolution gives for
    a room, if it gives one. *)
Definition resolved_name (rid : pyval) : option pyval :=
  match http_get net (RoomName rid) with
  | Ret r =>
      if status_code r =? 200 then
        match Py.obind (json r) (fun v => Py.getitem v "name") with
        | Ret n => Some n
        | Raise _ => None
        end
      else None
  | Raise _ => None
  end.

Definition named_in (names : list string) (rid : pyval) : bool :=
  match resolved_name rid with
  | Some n => Py.in_strs n names
  | None => false
  end.

Definition named_space (rid : pyval) : bool :=
  match resolved_name rid with
  | Some n => Py.str_eq (space config) n
  | None => false
  end.

(** The last room of the list that carries the space name. *)
Fixpoint last_named_space (rooms : list pyval) : option pyval :=
  match rooms with
  | [] => None
  | rid :: rest =>
      match last_named_space rest with
      | Some s => Some s
      | None => if named_space rid then Some rid else None
      end
  end.

(** The queries that the resolution makes about a room do not raise:
    the name query answers, a [200] answer has a ["name"], and the
    member count of a watched name answers. *)
Definition resolvable (rid : pyval) : Prop :=
  exists r,
    http_get net (RoomName rid) = Ret r
    /\ (status_code r = 200 ->
        exists n, Py.obind (json r) (fun v => Py.getitem v "name") = Ret n)
    /\ (named_in (watched_rooms config) rid = true -> answers (Members rid)).

(** The effects of the email phase: log calls and SMTP steps only, and
    a message handed to [sendmail] is about this event and this room. *)
Definition email_effect (room : MatrixRoom) (event : RoomMemberEvent)
           (room_type : string) (e : Effect) : Prop :=
  match e with
  | ELog _ => True
  | ESmtp (Sendmail m) =>
      msg_user m = state_key event
      /\ msg_room_name m = display_name room
      /\ msg_room_type m = room_type
      /\ msg_to m = email_to config
  | ESmtp _ => True
  | _ => False
  end.

End Vocabulary.

(** A computation that leaves the globals as they are. *)
Definition read_only {A} (m : M A) : Prop := forall g, st (m g) = g.

(** A computation whose effects and outcome do not depend on the
    globals it is run on. *)
Definition registry_blind {A} (m : M A) : Prop :=
  forall g g', tr (m g) = tr (m g') /\ out (m g) = out (m g').

(** A computation all of whose effects satisfy [P]. *)
Definition emits_only (P : Effect -> Prop) {A} (m : M A) : Prop :=
  forall g e, In e (tr (m g)) -> P e.

(** A computation whose trace holds no invite request and no SMTP step. *)
Definition quiet {A} (m : M A) : Prop :=
  emits_only (fun e => side_effect e = false) m.

(** ** A deployment to evaluate on

    Space "Space" with id [!space], watched room "RoomA" ([!a]), invite
    targets "RoomB" ([!b]) and "RoomC" ([!c]); alice is in the space,
    bob in RoomA. *)

Module Demo.

Definition config : Config :=
  {| space := "Space";
     watch := Some ["RoomA"];
     invite := Some ["RoomB"; "RoomC"];
     email_subject := "New member";
     email_from := "bot@example.org";
     email_to := "admin@example.org";
     email_replyto := None |}.

Definition ok (v : pyval) : outcome Response :=
  Ret {| status_code := 200; json := Ret v |}.

Definition not_found : outcome Response :=
  Ret {| status_code := 404; json := Ret (PDict [("errcode", PStr "M_NOT_FOUND")]) |}.

Definition member (u : string) : pyval :=
  PDict [("type", PStr "m.room.member"); ("user_id", PStr u)].

Definition name_of (rid : pyval) : outcome Response :=
  if Py.str_eq "!space" rid then ok (PDict [("name", PStr "Space")])
  else if Py.str_eq "!a" rid then ok (PDict [("name", PStr "RoomA")])
  else if Py.str_eq "!b" rid then ok (PDict [("name", PStr "RoomB")])
  else if Py.str_eq "!c" rid then ok (PDict [("name", PStr "RoomC")])
  else not_found.

Definition members_of (rid : pyval) : outcome Response :=
  if Py.str_eq "!space" rid then ok (PDict [("chunk", PList [member "@alice"])])
  else if Py.str_eq "!a" rid then ok (PDict [("chunk", PList [member "@bob"])])
  else not_found.

Definition get_ok (q : GetReq) : outcome Response :=
  match q with
  | JoinedRooms =>
      ok (PDict [("joined_rooms",
                  PList [PStr "!space"; PStr "!a"; PStr "!b"; PStr "!c"])])
  | RoomName rid => name_of rid
  | Members rid => members_of rid
  end.

Definition net : Net :=
  {| http_get := get_ok;
     http_post_invite := fun _ _ => ok (PDict []);
     compose := fun _ => None;
     smtp := fun _ => None |}.

(** The registry as the resolution leaves it on [net]. *)
Definition resolved : Globals :=
  {| space_id := PStr "!space";
     watched_room_ids := [PStr "!space"; PStr "!a"];
     to_invite_ids := [PStr "!b"; PStr "!c"] |}.

Definition the_space : MatrixRoom :=
  {| room_id := "!space"; display_name := "Space" |}.

Definition room_a : MatrixRoom :=
  {| room_id := "!a"; display_name := "RoomA" |}.

Definition joins (user : string) : RoomMemberEvent :=
  {| state_key := user;
     membership := "join";
     prev_membership := Some "invite";
     content := [("membership", PStr "join"); ("displayname", PStr "Someone")] |}.

(** The invite request for [!b] fails in the transport. *)
Definition net_invite_down : Net :=
  {| http_get := get_ok;
     http_post_invite :=
       fun rid _ => if Py.str_eq "!b" rid then Raise ConnectionError
                    else ok (PDict []);
     compose := fun _ => None;
     smtp := fun _ => None |}.

(** The membership query of the space fails in the transport. *)
Definition net_space_members_down : Net :=
  {| http_get := fun q => match q with
                          | Members rid =>
                              if Py.str_eq "!space" rid then Raise ConnectionError
                              else members_of rid
                          | _ => get_ok q
                          end;
     http_post_invite := fun _ _ => ok (PDict []);
     compose := fun _ => None;
     smtp := fun _ => None |}.

(** The membership query of RoomA fails in the transport. *)
Definition net_room_a_members_down : Net :=
  {| http_get := fun q => match q with
                          | Members rid =>
                              if Py.str_eq "!a" rid then Raise ConnectionError
                              else members_of rid
                          | _ => get_ok q
                          end;
     http_post_invite := fun _ _ => ok (PDict []);
     compose := fun _ => None;
     smtp := fun _ => None |}.

(** The homeserver cannot be reached for any invite request. *)
Definition net_invite_unreachable : Net :=
  {| http_get := get_ok;
     http_post_invite := fun _ _ => Raise ConnectionError;
     compose := fun _ => None;
     smtp := fun _ => None |}.

(** The bot has joined the invite targets only. *)
Definition net_only_targets : Net :=
  {| http_get := fun q => match q with
                          | JoinedRooms =>
                              ok (PDict [("joined_rooms",
                                          PList [PStr "!b"; PStr "!c"])])
                          | _ => get_ok q
                          end;
     http_post_invite := fun _ _ => ok (PDict []);
     compose := fun _ => None;
     smtp := fun _ => None |}.

(** The invite request for [!b] is refused with a status. *)
Definition net_invite_forbidden : Net :=
  {| http_get := get_ok;
     http_post_invite :=
       fun rid _ => if Py.str_eq "!b" rid
                    then Ret {| status_code := 403; json := Ret (PDict []) |}
                    else ok (PDict []);
     compose := fun _ => None;
     smtp := fun _ => None |}.

(** The mail server refuses the login. *)
Definition net_smtp_down : Net :=
  {| http_get := get_ok;
     http_post_invite := fun _ _ => ok (PDict []);
     compose := fun _ => None;
     smtp := fun s => match s with Login => Some SMTPException | _ => None end |}.

(** The space has been renamed: no joined room carries its name. *)
Definition name_of_renamed (rid : pyval) : outcome Response :=
  if Py.str_eq "!space" rid then ok (PDict [("name", PStr "Lounge")])
  else name_of rid.

Definition net_renamed : Net :=
  {| http_get := fun q => match q with
                          | RoomName rid => name_of_renamed rid
                          | _ => get_ok q
                          end;
     http_post_invite := fun _ _ => ok (PDict []);
     compose := fun _ => None;
     smtp := fun _ => None |}.

(** The room list cannot be read. *)
Definition net_list_down : Net :=
  {| http_get := fun q => match q with
                          | JoinedRooms =>
                              Ret {| status_code := 502; json := Raise JSONDecodeError |}
                          | _ => get_ok q
                          end;
     http_post_invite := fun _ _ => ok (PDict []);
     compose := fun _ => None;
     smtp := fun _ => None |}.

(** A room that got the name "RoomA" after the resolution: its id is
    not in the registry. *)
Definition room_renamed : MatrixRoom :=
  {| room_id := "!x"; display_name := "RoomA" |}.

Definition mail_about (user room_type room_name : string) : EmailMessage :=
  {| msg_displayname := PStr "Someone";
     msg_user := user;
     msg_room_type := room_type;
     msg_room_name := room_name;
     msg_subject := "New member";
     msg_from := "bot@example.org";
     msg_to := "admin@example.org";
     msg_replyto := None |}.

Definition joined_rooms : list pyval :=
  [PStr "!space"; PStr "!a"; PStr "!b"; PStr "!c"].

End Demo.

(** ** The listeners, the service loop and the command line *)

(** A call that the bot library makes to one of the two registered
    listeners, with the servers as they are at that call. *)
Inductive Callback : Type :=
| OnStartup (net : Net) (rid : string)
| OnMember (net : Net) (room : MatrixRoom) (event : RoomMemberEvent).

Definition callback (config : Config) (cb : Callback) : M unit :=
  match cb with
  | OnStartup net rid => room_joined config net rid
  | OnMember net room event => notify config net room event
  end.

(** One [bot.run()]: the listener calls in the order made; an
    exception that leaves a listener ends it. *)
Definition listener_run (config : Config) (cbs : list Callback) : M unit :=
  for_each cbs (callback config).

Inductive ServiceEvent : Type :=
| Session (t : list Effect)
| Caught (e : exn)
| Sleep (seconds : Z).

(** Lines 211-217, for as many rounds of [while True] as sessions are
    given: [bot.run()], the exception logged if one came out, then
    [time.sleep(10)].  The globals go from one round to the next. *)
Fixpoint serve (config : Config) (sessions : list (list Callback))
         (g : Globals) : list ServiceEvent * Globals :=
  match sessions with
  | [] => ([], g)
  | cbs :: rest =>
      let r := listener_run config cbs g in
      let round :=
        Session (tr r)
          :: match out r with
             | Ret _ => []
             | Raise e => [Caught e]
             end
          ++ [Sleep 10] in
      let (later, g') := serve config rest (st r) in
      (round ++ later, g')
  end.

Definition newline : ascii := "010"%char.

(** [sys.stdin.readline()] on the text that is left on standard input:
    the line with its newline, or what is left when there is none, and
    the rest. *)
Fixpoint readline (stdin : string) : string * string :=
  match stdin with
  | EmptyString => (EmptyString, EmptyString)
  | String c rest =>
      if Ascii.eqb c newline then (String c EmptyString, rest)
      else let (line, rest') := readline rest in (String c line, rest')
  end.

(** [s.rstrip('\n')] *)
Fixpoint rstrip_newline (s : string) : string :=
  match s with
  | EmptyString => EmptyString
  | String c s' =>
      match rstrip_newline s' with
      | EmptyString => if Ascii.eqb c newline then EmptyString
                       else String c EmptyString
      | t => String c t
      end
  end.

(** Lines 94-97 of [parse_commandline], for one password: the value
    ["-"] is replaced by a line of standard input. *)
Definition read_password (given stdin : string) : string * string :=
  if String.eqb given "-" then
    let (line, rest) := readline stdin in (rstrip_newline line, rest)
  else (given, stdin).

(** The matrix password first, then the SMTP password. *)
Definition read_passwords (matrix_pass smtp_pass stdin : string)
  : string * string * string :=
  let (mp, stdin1) := read_password matrix_pass stdin in
  let (sp, stdin2) := read_password smtp_pass stdin1 in
  (mp, sp, stdin2).

Fixpoint has_newline (s : string) : bool :=
  match s with
  | EmptyString => false
  | String c s' => Ascii.eqb c newline || has_newline s'
  end.

(** A triple for the monad: from globals with [P], a normal end with
    value [a] leaves globals with [Q a], an exception globals with [E]. *)
Definition hoare {A} (P : Globals -> Prop) (m : M A)
           (Q : A -> Globals -> Prop) (E : Globals -> Prop) : Prop :=
  forall g, P g ->
            match out (m g) with
            | Ret a => Q a (st (m g))
            | Raise _ => E (st (m g))
            end.

(** [space_id] is unset or one of the watched room ids. *)
Definition space_watched (g : Globals) : Prop :=
  space_id g = PNone \/ In (space_id g) (watched_room_ids g).

(** The registry holds only rooms of the list [rooms], each under a
    name that the configuration asks for. *)
Definition resolved_from (config : Config) (net : Net) (rooms : list pyval)
           (g : Globals) : Prop :=
  Forall (fun rid => In rid rooms
                     /\ named_in net (watched_rooms config) rid = true)
         (watched_room_ids g)
  /\ Forall (fun rid => In rid rooms
                        /\ named_in net (to_invite config) rid = true)
            (to_invite_ids g).

(** What the handler may do on an event of [room] with the registry
    [g]: log, ask for the members of a watched room other than [room],
    invite the subject to a resolved target, take an SMTP step. *)
Definition handler_effect (room : MatrixRoom) (event : RoomMemberEvent)
           (g : Globals) (e : Effect) : Prop :=
  match e with
  | ELog _ => True
  | EGet (Members rid) =>
      In rid (watched_room_ids g) /\ rid <> PStr (room_id room)
  | EInvite t u => In t (to_invite_ids g) /\ u = state_key event
  | ESmtp _ => True
  | _ => False
  end.

(** What the resolution may do: the three queries, log calls and the
    diagnostic. *)
Definition resolution_effect (e : Effect) : Prop :=
  match e with
  | EInvite _ _ | ESmtp _ => False
  | _ => True
  end.

(** A query or a print that only the resolution makes. *)
Definition resolution_only (e : Effect) : bool :=
  match e with
  | EGet JoinedRooms | EGet (RoomName _) | EPrintCannotFind => true
  | _ => false
  end.

(** ** Further situations to evaluate on *)

Module Scenario.

(** RoomA answers with two members, the second entry without a
    ["user_id"]. *)
Definition bad_entry_chunk : list pyval :=
  [Demo.member "@bob"; PDict [("type", PStr "m.room.member")]].

Definition bad_entry_response : Response :=
  {| status_code := 200;
     json := Ret (PDict [("chunk", PList bad_entry_chunk)]) |}.

Definition net_bad_entry : Net :=
  {| http_get := fun q => match q with
                          | Members rid =>
                              if Py.str_eq "!a" rid then Ret bad_entry_response
                              else Demo.members_of rid
                          | _ => Demo.get_ok q
                          end;
     http_post_invite := fun _ _ => Demo.ok (PDict []);
     compose := fun _ => None;
     smtp := fun _ => None |}.

(** RoomA answers with an object, keyed by user id, for ["chunk"]. *)
Definition keyed_response : Response :=
  {| status_code := 200;
     json := Ret (PDict [("chunk", PDict [("@bob", PDict [])])]) |}.

Definition net_keyed_chunk : Net :=
  {| http_get := fun q => match q with
                          | Members rid =>
                              if Py.str_eq "!a" rid then Ret keyed_response
                              else Demo.members_of rid
                          | _ => Demo.get_ok q
                          end;
     http_post_invite := fun _ _ => Demo.ok (PDict []);
     compose := fun _ => None;
     smtp := fun _ => None |}.

(** The email library refuses the value of the subject. *)
Definition net_header_refused : Net :=
  {| http_get := Demo.get_ok;
     http_post_invite := fun _ _ => Demo.ok (PDict []);
     compose := fun c => match c with
                         | SetHeader "Subject" _ => Some ValueError
                         | _ => None
                         end;
     smtp := fun _ => None |}.

(** A join of a user who has set no display name. *)
Definition joins_unnamed (user : string) : RoomMemberEvent :=
  {| state_key := user;
     membership := "join";
     prev_membership := None;
     content := [("membership", PStr "join")] |}.

Definition room_list_response : Response :=
  {| status_code := 200;
     json := Ret (PDict [("joined_rooms", PList Demo.joined_rooms)]) |}.

(** Two rounds of the service: a start at which the room list cannot
    be read, with a join that ends the round on a transport error of
    the invitation; then a start that resolves, and two joins. *)
Definition sessions : list (list Callback) :=
  [ [OnStartup Demo.net_list_down "!space";
     OnMember Demo.net_invite_down Demo.the_space (Demo.joins "@carol")];
    [OnStartup Demo.net "!space";
     OnStartup Demo.net "!a";
     OnMember Demo.net_invite_down Demo.the_space (Demo.joins "@dave");
     OnMember Demo.net Demo.room_a (Demo.joins "@alice")] ].

Definition resolved_reversed : Globals :=
  {| space_id := PStr "!space";
     watched_room_ids := [PStr "!a"; PStr "!space"];
     to_invite_ids := [PStr "!b"; PStr "!c"] |}.

End Scenario.

(** ** Running the monad *)

Lemma bind_ret {A B} (m : M A) (k : A -> M B) (g : Globals) (a : A) :
  out (m g) = Ret a ->
  bind m k g = Run (st (k a (st (m g)))) (tr (m g) ++ tr (k a (st (m g))))
                   (out (k a (st (m g)))).
Proof. intros H. unfold bind. rewrite H. reflexivity. Qed.

Lemma bind_raise {A B} (m : M A) (k : A -> M B) (g : Globals) (e : exn) :
  out (m g) = Raise e ->
  bind m k g = Run (st (m g)) (tr (m g)) (Raise e).
Proof. intros H. unfold bind. rewrite H. reflexivity. Qed.

Lemma bind_run {A B} (m : M A) (k : A -> M B) (g g1 : Globals)
      (t1 : list Effect) (a : A) :
  m g = Run g1 t1 (Ret a) ->
  bind m k g = Run (st (k a g1)) (t1 ++ tr (k a g1)) (out (k a g1)).
Proof. intros H. unfold bind. rewrite H. reflexivity. Qed.

Lemma run_eta {A} (r : run A) : r = Run (st r) (tr r) (out r).
Proof. destruct r; reflexivity. Qed.

Lemma read_only_ret {A} (a : A) : read_only (ret a).
Proof. intros g; reflexivity. Qed.

Lemma read_only_raise {A} (e : exn) : read_only (@raise A e).
Proof. intros g; reflexivity. Qed.

Lemma read_only_emit (e : Effect) : read_only (emit e).
Proof. intros g; reflexivity. Qed.

Lemma read_only_log (m : LogMsg) : read_only (log m).
Proof. intros g; reflexivity. Qed.

Lemma read_only_get : read_only get.
Proof. intros g; reflexivity. Qed.

Lemma read_only_lift {A} (o : outcome A) : read_only (lift o).
Proof. destruct o; intros g; reflexivity. Qed.

Lemma read_only_bind {A B} (m : M A) (k : A -> M B) :
  read_only m -> (forall a, read_only (k a)) -> read_only (bind m k).
Proof.
  intros Hm Hk g. unfold bind.
  destruct (out (m g)) as [a|e]; simpl.
  - rewrite Hm. apply Hk.
  - apply Hm.
Qed.

Lemma read_only_try_except {A} (m : M A) (h : exn -> M A) :
  read_only m -> (forall e, read_only (h e)) -> read_only (try_except m h).
Proof.
  intros Hm Hh g. unfold try_except.
  destruct (out (m g)) as [a|e]; simpl.
  - apply Hm.
  - rewrite Hm. apply Hh.
Qed.

Lemma read_only_for_each {A} (l : list A) (body : A -> M unit) :
  (forall x, read_only (body x)) -> read_only (for_each l body).
Proof.
  intros Hb. induction l as [|x l IH]; simpl.
  - apply read_only_ret.
  - apply read_only_bind; auto.
Qed.

Lemma read_only_if {A} (b : bool) (m1 m2 : M A) :
  read_only m1 -> read_only m2 -> read_only (if b then m1 else m2).
Proof. destruct b; auto. Qed.

Create HintDb ro discriminated.
#[export] Hint Resolve read_only_ret read_only_raise read_only_emit
  read_only_log read_only_get read_only_lift read_only_bind
  read_only_try_except read_only_for_each read_only_if : ro.

Section EmitsOnly.

Variable P : Effect -> Prop.

Lemma only_ret {A} (a : A) : emits_only P (ret a).
Proof. intros g e []. Qed.

Lemma only_raise {A} (x : exn) : emits_only P (@raise A x).
Proof. intros g e []. Qed.

Lemma only_emit (e : Effect) : P e -> emits_only P (emit e).
Proof. intros H g e' [<-|[]]. exact H. Qed.

Lemma only_get : emits_only P get.
Proof. intros g e []. Qed.

Lemma only_modify (f : Globals -> Globals) : emits_only P (modify f).
Proof. intros g e []. Qed.

Lemma only_lift {A} (o : outcome A) : emits_only P (lift o).
Proof. destruct o as [a|x]; intros g e []. Qed.

Lemma only_bind {A B} (m : M A) (k : A -> M B) :
  emits_only P m -> (forall a, emits_only P (k a)) -> emits_only P (bind m k).
Proof.
  intros Hm Hk g e. unfold bind.
  destruct (out (m g)) as [a|x]; simpl; intros Hin.
  - apply in_app_or in Hin as [Hin|Hin]; [eapply Hm | eapply Hk]; eauto.
  - eapply Hm; eauto.
Qed.

Lemma only_try_except {A} (m : M A) (h : exn -> M A) :
  emits_only P m -> (forall x, emits_only P (h x)) ->
  emits_only P (try_except m h).
Proof.
  intros Hm Hh g e. unfold try_except.
  destruct (out (m g)) as [a|x]; simpl; intros Hin.
  - eapply Hm; eauto.
  - apply in_app_or in Hin as [Hin|Hin]; [eapply Hm | eapply Hh]; eauto.
Qed.

Lemma only_if {A} (b : bool) (m1 m2 : M A) :
  emits_only P m1 -> emits_only P m2 -> emits_only P (if b then m1 else m2).
Proof. destruct b; auto. Qed.

Lemma only_for_each {A} (l : list A) (body : A -> M unit) :
  (forall x, In x l -> emits_only P (body x)) -> emits_only P (for_each l body).
Proof.
  induction l as [|x l IH]; simpl; intros Hb.
  - apply only_ret.
  - apply only_bind; [apply Hb; now left|]. intros _. apply IH.
    intros y Hy. apply Hb. now right.
Qed.

End EmitsOnly.

Create HintDb only discriminated.
#[export] Hint Resolve only_ret only_raise only_get only_modify only_lift
  only_bind only_try_except only_if : only.

Lemma only_log (P : Effect -> Prop) (m : LogMsg) :
  P (ELog m) -> emits_only P (log m).
Proof. apply only_emit. Qed.

Lemma quiet_log (m : LogMsg) : quiet (log m).
Proof. apply only_log. reflexivity. Qed.

Lemma blind_ret {A} (a : A) : registry_blind (ret a).
Proof. intros g g'. split; reflexivity. Qed.

Lemma blind_raise {A} (x : exn) : registry_blind (@raise A x).
Proof. intros g g'. split; reflexivity. Qed.

Lemma blind_emit (e : Effect) : registry_blind (emit e).
Proof. intros g g'. split; reflexivity. Qed.

Lemma blind_lift {A} (o : outcome A) : registry_blind (lift o).
Proof. destruct o; intros g g'; split; reflexivity. Qed.

Lemma blind_bind {A B} (m : M A) (k : A -> M B) :
  read_only m -> registry_blind m -> (forall a, registry_blind (k a)) ->
  registry_blind (bind m k).
Proof.
  intros Hro Hm Hk g g'. unfold bind.
  destruct (Hm g g') as [Ht Ho]. rewrite !Hro, <- Ho, <- Ht.
  destruct (out (m g)) as [a|x]; cbn [tr out]; [|split; reflexivity].
  destruct (Hk a g g') as [Ht' Ho']. now rewrite Ht', Ho'.
Qed.

Lemma blind_try_except {A} (m : M A) (h : exn -> M A) :
  read_only m -> registry_blind m -> (forall x, registry_blind (h x)) ->
  registry_blind (try_except m h).
Proof.
  intros Hro Hm Hh g g'. unfold try_except.
  destruct (Hm g g') as [Ht Ho]. rewrite !Hro, <- Ho.
  destruct (out (m g)) as [a|x] eqn:E; cbn [tr out].
  - split; [assumption | congruence].
  - destruct (Hh x g g') as [Ht' Ho']. now rewrite Ht, Ht', Ho'.
Qed.

Lemma project_none {A} (f : Effect -> option A) (t : list Effect) :
  (forall e, In e t -> f e = None) -> project f t = [].
Proof.
  induction t as [|e t IH]; simpl; intros H; [reflexivity|].
  rewrite (H e) by now left. apply IH. intros e' He'. apply H. now right.
Qed.

Lemma project_app {A} (f : Effect -> option A) (t1 t2 : list Effect) :
  project f (t1 ++ t2) = project f t1 ++ project f t2.
Proof.
  induction t1 as [|e t1 IH]; simpl; [reflexivity|].
  destruct (f e); simpl; now rewrite IH.
Qed.

Lemma opt_eq_Some (s : string) (v : pyval) :
  Py.opt_eq (Some s) v = true <-> v = PStr s.
Proof.
  destruct v; simpl; split; try discriminate.
  - intros H. apply String.eqb_eq in H. now subst.
  - intros [= ->]. apply String.eqb_refl.
Qed.

Lemma str_eq_true (s : string) (v : pyval) :
  Py.str_eq s v = true <-> v = PStr s.
Proof. apply (opt_eq_Some s v). Qed.

Lemma str_in_In (s : string) (l : list pyval) :
  Py.str_in s l = true <-> In (PStr s) l.
Proof.
  unfold Py.str_in. rewrite existsb_exists. split.
  - intros (v & Hin & Hv). apply str_eq_true in Hv. now subst.
  - intros Hin. exists (PStr s). split; [assumption|]. now apply str_eq_true.
Qed.

Section Membership.

Variable net : Net.

Lemma read_only_s_get (q : GetReq) : read_only (s_get net q).
Proof. unfold s_get. auto with ro. Qed.

Lemma s_get_bind {B} (q : GetReq) (k : Response -> M B) (g : Globals)
      (r : Response) :
  http_get net q = Ret r ->
  bind (s_get net q) k g = Run (st (k r g)) (EGet q :: tr (k r g)) (out (k r g)).
Proof.
  intros H. unfold s_get. unfold bind at 1. unfold bind at 1.
  cbn [emit st tr out]. rewrite H. reflexivity.
Qed.

Lemma quiet_s_get (q : GetReq) : quiet (s_get net q).
Proof.
  unfold s_get. apply only_bind; [|auto with only].
  apply only_emit. reflexivity.
Qed.

Lemma read_only_room_members (rid : pyval) : read_only (room_members net rid).
Proof.
  unfold room_members.
  apply read_only_bind; [apply read_only_s_get|]. intros r.
  auto 6 with ro.
Qed.

Lemma quiet_room_members (rid : pyval) : quiet (room_members net rid).
Proof.
  unfold room_members.
  apply only_bind; [apply quiet_s_get|]. intros r.
  apply only_if; [auto with only|].
  apply only_try_except; [auto with only|]. intros x.
  apply only_bind; [apply quiet_log | auto with only].
Qed.

(** The run of [room_members], case by case. *)
Lemma room_members_run (rid : pyval) (g : Globals) :
  room_members net rid g =
  match http_get net (Members rid) with
  | Raise e => Run g [EGet (Members rid)] (Raise e)
  | Ret r =>
      if status_code r =? 200 then
        match chunk_user_ids r with
        | Ret ms => Run g [EGet (Members rid)] (Ret ms)
        | Raise e =>
            Run g [EGet (Members rid); ELog (LRoomMembers e)] (Ret [])
        end
      else Run g [EGet (Members rid)] (Ret [])
  end.
Proof.
  unfold room_members, s_get, bind, try_except, emit, lift; simpl.
  destruct (http_get net (Members rid)) as [r|e]; simpl; [|reflexivity].
  destruct (status_code r =? 200); simpl; [|reflexivity].
  destruct (chunk_user_ids r) as [ms|e]; reflexivity.
Qed.

Lemma room_members_answers (rid : pyval) (g : Globals) :
  answers net (Members rid) ->
  exists ms, out (room_members net rid g) = Ret ms
             /\ gets_of (tr (room_members net rid g)) = [Members rid].
Proof.
  intros [r Hr]. rewrite room_members_run, Hr.
  destruct (status_code r =? 200); [|eexists; split; reflexivity].
  destruct (chunk_user_ids r); eexists; split; reflexivity.
Qed.

Lemma comprehension_Forall2 (umaps us : list pyval) :
  Forall2 (fun umap u => Py.getitem umap "user_id" = Ret u) umaps us ->
  Py.comprehension (fun umap => Py.getitem umap "user_id") umaps = Ret us.
Proof.
  induction 1 as [|umap u umaps us Hu _ IH]; simpl; [reflexivity|].
  rewrite Hu; simpl. rewrite IH; reflexivity.
Qed.

(** C6. When the membership query returns a response, [room_members]
    never raises: a [200] response of the expected shape (a ["chunk"]
    list whose entries each carry a ["user_id"]) gives those user ids,
    in order, a response of another status gives the empty list with
    no further effect, and a [200] response whose body does not parse
    to that shape gives the empty list. *)
Theorem room_members_degrades (rid : pyval) (g : Globals) (r : Response) :
  http_get net (Members rid) = Ret r ->
  (forall v umaps us,
      status_code r = 200 ->
      json r = Ret v ->
      Py.getitem v "chunk" = Ret (PList umaps) ->
      Forall2 (fun umap u => Py.getitem umap "user_id" = Ret u) umaps us ->
      room_members net rid g = Run g [EGet (Members rid)] (Ret us))
  /\ (status_code r <> 200 ->
      room_members net rid g = Run g [EGet (Members rid)] (Ret []))
  /\ (forall e, chunk_user_ids r = Raise e ->
                out (room_members net rid g) = Ret [])
  /\ (exists ms, out (room_members net rid g) = Ret ms)
  /\ st (room_members net rid g) = g.
Proof.
  intros Hr. rewrite room_members_run, Hr. repeat split.
  - intros v umaps us Hs Hv Hc Hus.
    rewrite Hs; simpl. unfold chunk_user_ids. rewrite Hv; simpl.
    rewrite Hc; simpl. rewrite (comprehension_Forall2 _ _ Hus). reflexivity.
  - intros Hs. apply Z.eqb_neq in Hs. rewrite Hs. reflexivity.
  - intros e He. destruct (status_code r =? 200); [|reflexivity].
    rewrite He. reflexivity.
  - destruct (status_code r =? 200); [|eexists; reflexivity].
    destruct (chunk_user_ids r); eexists; reflexivity.
  - destruct (status_code r =? 200); [|reflexivity].
    destruct (chunk_user_ids r); reflexivity.
Qed.

Lemma uak_loop_skip (user : string) (excl : option string) (rid : pyval)
      (rest : list pyval) (g : Globals) :
  Py.opt_eq excl rid = true ->
  user_already_known_loop net user excl (rid :: rest) g
  = user_already_known_loop net user excl rest g.
Proof. intros H. simpl. rewrite H. reflexivity. Qed.

Lemma uak_loop_step (user : string) (excl : option string) (rid : pyval)
      (rest : list pyval) (g : Globals) :
  Py.opt_eq excl rid = false ->
  user_already_known_loop net user excl (rid :: rest) g
  = match out (room_members net rid g) with
    | Raise e => Run g (tr (room_members net rid g)) (Raise e)
    | Ret ms =>
        if Py.str_in user ms
        then Run g (tr (room_members net rid g) ++ []) (Ret true)
        else Run (st (user_already_known_loop net user excl rest g))
                 (tr (room_members net rid g)
                     ++ tr (user_already_known_loop net user excl rest g))
                 (out (user_already_known_loop net user excl rest g))
    end.
Proof.
  intros H. simpl. rewrite H. unfold bind.
  rewrite read_only_room_members.
  destruct (out (room_members net rid g)) as [ms|e]; [|reflexivity].
  destruct (Py.str_in user ms); reflexivity.
Qed.

Lemma read_only_uak_loop (user : string) (excl : option string)
      (rooms : list pyval) :
  read_only (user_already_known_loop net user excl rooms).
Proof.
  induction rooms as [|rid rest IH]; simpl; [auto with ro|].
  apply read_only_if; [assumption|].
  apply read_only_bind; [apply read_only_room_members|].
  intros ms. auto with ro.
Qed.

Lemma quiet_uak_loop (user : string) (excl : option string)
      (rooms : list pyval) :
  quiet (user_already_known_loop net user excl rooms).
Proof.
  induction rooms as [|rid rest IH]; simpl; [apply only_ret|].
  apply only_if; [assumption|].
  apply only_bind; [apply quiet_room_members|].
  intros ms. apply only_if; [apply only_ret | assumption].
Qed.

Lemma user_already_known_run (user : string) (excl : option string)
      (g : Globals) :
  user_already_known net user excl g
  = user_already_known_loop net user excl (watched_room_ids g) g.
Proof.
  unfold user_already_known, bind, get; simpl.
  destruct (user_already_known_loop net user excl (watched_room_ids g) g)
    as [s t o]; simpl.
  destruct o; reflexivity.
Qed.

Lemma read_only_user_already_known (user : string) (excl : option string) :
  read_only (user_already_known net user excl).
Proof. intros g. rewrite user_already_known_run. apply read_only_uak_loop. Qed.

Lemma quiet_user_already_known (user : string) (excl : option string) :
  quiet (user_already_known net user excl).
Proof.
  intros g e. rewrite user_already_known_run. apply quiet_uak_loop.
Qed.

Lemma listed_unique (user : string) (rid : pyval) (g : Globals)
      (ms : list pyval) :
  out (room_members net rid g) = Ret ms ->
  Py.str_in user ms = false ->
  ~ listed net user rid g.
Proof.
  intros Hms Hno (ms' & Hms' & Hin). congruence.
Qed.

(** A [False] answer of the loop: every room it had to ask returned a
    list without the user. *)
Lemma uak_loop_false (user : string) (excl : option string)
      (rooms : list pyval) (g : Globals) :
  out (user_already_known_loop net user excl rooms g) = Ret false ->
  forall rid, In rid rooms -> Py.opt_eq excl rid = false ->
              ~ listed net user rid g.
Proof.
  induction rooms as [|r rest IH]; intros Hout rid Hin Hex; [destruct Hin|].
  destruct (Py.opt_eq excl r) eqn:Er.
  - rewrite uak_loop_skip in Hout by assumption.
    destruct Hin as [->|Hin]; [congruence | now apply IH].
  - rewrite uak_loop_step in Hout by assumption.
    destruct (out (room_members net r g)) as [ms|e] eqn:Em; [|discriminate].
    destruct (Py.str_in user ms) eqn:Es; [discriminate|]. simpl in Hout.
    destruct Hin as [->|Hin]; [|now apply IH].
    now apply (listed_unique user rid g ms).
Qed.

Lemma uak_loop_spec (user : string) (excl : option string)
      (rooms : list pyval) (g : Globals) :
  (forall rid, In rid rooms -> Py.opt_eq excl rid = false ->
               answers net (Members rid)) ->
  exists b,
    out (user_already_known_loop net user excl rooms g) = Ret b
    /\ (b = true ->
        exists pre rid post,
          rooms = pre ++ rid :: post
          /\ Py.opt_eq excl rid = false
          /\ listed net user rid g
          /\ (forall r', In r' pre -> Py.opt_eq excl r' = false ->
                         ~ listed net user r' g)
          /\ gets_of (tr (user_already_known_loop net user excl rooms g))
             = map Members
                   (filter (fun r => negb (Py.opt_eq excl r)) pre ++ [rid]))
    /\ (b = false ->
        gets_of (tr (user_already_known_loop net user excl rooms g))
        = map Members (filter (fun r => negb (Py.opt_eq excl r)) rooms)).
Proof.
  induction rooms as [|r rest IH]; intros Hans.
  - exists false. repeat split; discriminate.
  - destruct IH as (b & Hb & Ht & Hf).
    { intros rid Hin. apply Hans. now right. }
    destruct (Py.opt_eq excl r) eqn:Er.
    + rewrite uak_loop_skip by assumption. exists b. split; [assumption|]. split.
      * intros Hbt. destruct (Ht Hbt) as (pre & rid & post & -> & Hex & Hl & Hpre & Hg).
        exists (r :: pre), rid, post. repeat split; try assumption.
        -- intros r' [<-|Hin] Hr'; [congruence | now apply Hpre].
        -- simpl. rewrite Er. simpl. exact Hg.
      * intros Hbf. simpl. rewrite Er. simpl. now apply Hf.
    + rewrite uak_loop_step by assumption.
      destruct (room_members_answers r g) as (ms & Hms & Hq).
      { apply Hans; [now left | assumption]. }
      rewrite Hms. destruct (Py.str_in user ms) eqn:Es.
      * exists true. split; [reflexivity|]. split; [|discriminate].
        intros _. exists [], r, rest. repeat split; try assumption.
        -- exists ms. now split.
        -- intros r' [].
        -- simpl. unfold gets_of in *. rewrite project_app, Hq. reflexivity.
      * exists b. simpl. split; [assumption|]. split.
        -- intros Hbt.
           destruct (Ht Hbt) as (pre & rid & post & -> & Hex & Hl & Hpre & Hg).
           exists (r :: pre), rid, post. repeat split; try assumption.
           ++ intros r' [<-|Hin] Hr'; [|now apply Hpre].
              now apply (listed_unique user r g ms).
           ++ simpl. rewrite Er. simpl. unfold gets_of in *.
              rewrite project_app, Hq, Hg. reflexivity.
        -- intros Hbf. simpl. rewrite Er. simpl. unfold gets_of in *.
           rewrite project_app, Hq, (Hf Hbf). reflexivity.
Qed.

(** The loop when the rooms that it comes to answer: a room has to
    answer only if no room before it lists the user. *)
Lemma uak_loop_spec_asked (user : string) (excl : option string)
      (rooms : list pyval) (g : Globals) :
  (forall pre rid post,
      rooms = pre ++ rid :: post ->
      Py.opt_eq excl rid = false ->
      (forall r', In r' pre -> Py.opt_eq excl r' = false ->
                  ~ listed net user r' g) ->
      answers net (Members rid)) ->
  exists b,
    out (user_already_known_loop net user excl rooms g) = Ret b
    /\ (b = true ->
        exists pre rid post,
          rooms = pre ++ rid :: post
          /\ Py.opt_eq excl rid = false
          /\ listed net user rid g
          /\ (forall r', In r' pre -> Py.opt_eq excl r' = false ->
                         ~ listed net user r' g)
          /\ gets_of (tr (user_already_known_loop net user excl rooms g))
             = map Members
                   (filter (fun r => negb (Py.opt_eq excl r)) pre ++ [rid])).
Proof.
  induction rooms as [|r rest IH]; intros Hans.
  - exists false. split; [reflexivity | discriminate].
  - destruct (Py.opt_eq excl r) eqn:Er.
    + rewrite uak_loop_skip by assumption.
      destruct IH as (b & Hb & Ht).
      { intros pre rid post Heq Hex Hpre.
        apply (Hans (r :: pre) rid post); [now rewrite Heq | assumption|].
        intros r' [<-|Hin] Hr'; [congruence | now apply Hpre]. }
      exists b. split; [assumption|].
      intros Hbt. destruct (Ht Hbt) as (pre & rid & post & -> & Hex & Hl & Hpre & Hg).
      exists (r :: pre), rid, post. repeat split; try assumption.
      * intros r' [<-|Hin] Hr'; [congruence | now apply Hpre].
      * simpl. rewrite Er. simpl. exact Hg.
    + rewrite uak_loop_step by assumption.
      destruct (room_members_answers r g) as (ms & Hms & Hq).
      { apply (Hans [] r rest); [reflexivity | assumption | intros r' []]. }
      rewrite Hms. destruct (Py.str_in user ms) eqn:Es.
      * exists true. split; [reflexivity|].
        intros _. exists [], r, rest. repeat split; try assumption.
        -- exists ms. now split.
        -- intros r' [].
        -- simpl. unfold gets_of in *. rewrite project_app, Hq. reflexivity.
      * destruct IH as (b & Hb & Ht).
        { intros pre rid post Heq Hex Hpre.
          apply (Hans (r :: pre) rid post); [now rewrite Heq | assumption|].
          intros r' [<-|Hin] Hr'; [|now apply Hpre].
          now apply (listed_unique user r g ms). }
        exists b. simpl. split; [assumption|].
        intros Hbt.
        destruct (Ht Hbt) as (pre & rid & post & -> & Hex & Hl & Hpre & Hg).
        exists (r :: pre), rid, post. repeat split; try assumption.
        -- intros r' [<-|Hin] Hr'; [|now apply Hpre].
           now apply (listed_unique user r g ms).
        -- simpl. rewrite Er. simpl. unfold gets_of in *.
           rewrite project_app, Hq, Hg. reflexivity.
Qed.

(** C3, as the code has it.  When the membership queries that the loop
    comes to are answered, that is those of the watched rooms other
    than the excluded one that have no room listing the user before
    them, [user_already_known] returns a boolean, which is [True]
    exactly when the user is in the member list of some watched room
    that does not equal [exclude_room]; and a [True] comes from the
    first such room: the rooms asked are the non-excluded ones up to
    and including it, none after it, so that a room after it need not
    answer. *)
Theorem user_already_known_iff (user : string) (excl : option string)
        (g : Globals) :
  (forall pre rid post,
      watched_room_ids g = pre ++ rid :: post ->
      Py.opt_eq excl rid = false ->
      (forall r', In r' pre -> Py.opt_eq excl r' = false ->
                  ~ listed net user r' g) ->
      answers net (Members rid)) ->
  exists b,
    user_already_known net user excl g
    = Run g (tr (user_already_known net user excl g)) (Ret b)
    /\ (b = true <->
        exists rid, In rid (watched_room_ids g)
                    /\ Py.opt_eq excl rid = false
                    /\ listed net user rid g)
    /\ (b = true ->
        exists pre rid post,
          watched_room_ids g = pre ++ rid :: post
          /\ Py.opt_eq excl rid = false
          /\ listed net user rid g
          /\ (forall r', In r' pre -> Py.opt_eq excl r' = false ->
                         ~ listed net user r' g)
          /\ gets_of (tr (user_already_known net user excl g))
             = map Members
                   (filter (fun r => negb (Py.opt_eq excl r)) pre ++ [rid])).
Proof.
  intros Hans.
  destruct (uak_loop_spec_asked user excl (watched_room_ids g) g Hans)
    as (b & Hb & Ht).
  exists b. rewrite user_already_known_run. split; [|split].
  - rewrite (run_eta (user_already_known_loop net user excl (watched_room_ids g) g))
      at 1.
    rewrite Hb, read_only_uak_loop. reflexivity.
  - split.
    + intros Hbt. destruct (Ht Hbt) as (pre & rid & post & Heq & Hex & Hl & _).
      exists rid. rewrite Heq. repeat split; try assumption.
      apply in_or_app. right. now left.
    + intros (rid & Hin & Hex & Hl). destruct b; [reflexivity|].
      exfalso. exact (uak_loop_false user excl _ g Hb rid Hin Hex Hl).
  - exact Ht.
Qed.

(** The registry is empty: no room is asked and the answer is [False]. *)
Lemma user_already_known_empty (user : string) (excl : option string)
      (g : Globals) :
  watched_room_ids g = [] ->
  user_already_known net user excl g = Run g [] (Ret false).
Proof.
  intros H. rewrite user_already_known_run, H. reflexivity.
Qed.

End Membership.

Section Handler.

Variable config : Config.
Variable net : Net.

(** *** The invitation loop *)

Lemma invite_loop_cons (user : string) (t : pyval) (rest : list pyval)
      (g : Globals) :
  invite_loop net user (t :: rest) g
  = match http_post_invite net t user with
    | Ret _ =>
        Run (st (invite_loop net user rest g))
            (EInvite t user :: tr (invite_loop net user rest g))
            (out (invite_loop net user rest g))
    | Raise e => Run g [EInvite t user] (Raise e)
    end.
Proof.
  unfold invite_loop. cbn [for_each].
  unfold bind at 1. unfold s_post_invite, bind at 1, emit, lift; simpl.
  destruct (http_post_invite net t user); reflexivity.
Qed.

Lemma invite_loop_answers (user : string) (pre rest : list pyval) (g : Globals) :
  (forall p, In p pre -> invite_answers net user p) ->
  invite_loop net user (pre ++ rest) g
  = Run (st (invite_loop net user rest g))
        (map (fun t => EInvite t user) pre ++ tr (invite_loop net user rest g))
        (out (invite_loop net user rest g)).
Proof.
  induction pre as [|p pre IH]; intros Hans.
  - simpl. apply run_eta.
  - destruct (Hans p) as [r Hr]; [now left|].
    change ((p :: pre) ++ rest) with (p :: (pre ++ rest)).
    rewrite invite_loop_cons, Hr.
    rewrite IH by (intros q Hq; apply Hans; now right). reflexivity.
Qed.

Lemma invite_loop_raises (user : string) (t : pyval) (post : list pyval)
      (g : Globals) (e : exn) :
  http_post_invite net t user = Raise e ->
  invite_loop net user (t :: post) g = Run g [EInvite t user] (Raise e).
Proof. intros He. rewrite invite_loop_cons, He. reflexivity. Qed.

Lemma invite_loop_first (user : string) (t : pyval) (post : list pyval)
      (g : Globals) :
  exists rest,
    tr (invite_loop net user (t :: post) g) = EInvite t user :: rest.
Proof.
  rewrite invite_loop_cons.
  destruct (http_post_invite net t user); simpl; eexists; reflexivity.
Qed.

Lemma read_only_s_post_invite (t : pyval) (user : string) :
  read_only (s_post_invite net t user).
Proof. unfold s_post_invite. auto with ro. Qed.

Lemma read_only_invite_phase (room : MatrixRoom) (event : RoomMemberEvent) :
  read_only (invite_phase net room event).
Proof.
  unfold invite_phase. apply read_only_bind; [apply read_only_get|]. intros g.
  apply read_only_if; [|apply read_only_ret].
  apply read_only_bind; [|auto with ro].
  unfold invite_loop. apply read_only_for_each. intros t.
  apply read_only_bind; [apply read_only_s_post_invite | auto with ro].
Qed.

Lemma invite_phase_run (room : MatrixRoom) (event : RoomMemberEvent)
      (g : Globals) :
  invite_phase net room event g
  = if Py.str_eq (room_id room) (space_id g) then
      let r := invite_loop net (state_key event) (to_invite_ids g) g in
      Run (st r) (tr r)
          (match out r with Ret _ => Ret "space" | Raise e => Raise e end)
    else Run g [] (Ret "room").
Proof.
  unfold invite_phase, bind, get; simpl.
  destruct (Py.str_eq (room_id room) (space_id g)); [|reflexivity].
  destruct (out (invite_loop _ _ _ g)); simpl; [|reflexivity].
  now rewrite app_nil_r.
Qed.

(** Every effect of the invitation phase is an invite request, for the
    subject of the event, to a resolved invite target, made for an
    event of the room that equals [space_id]. *)
Lemma invite_phase_effects (room : MatrixRoom) (event : RoomMemberEvent)
      (g : Globals) (e : Effect) :
  In e (tr (invite_phase net room event g)) ->
  exists t, e = EInvite t (state_key event)
            /\ In t (to_invite_ids g)
            /\ space_id g = PStr (room_id room).
Proof.
  rewrite invite_phase_run.
  destruct (Py.str_eq (room_id room) (space_id g)) eqn:Es; [|intros []].
  apply str_eq_true in Es. cbn [tr].
  intros Hin.
  assert (H : emits_only
                (fun e => exists t, e = EInvite t (state_key event)
                                    /\ In t (to_invite_ids g))
                (invite_loop net (state_key event) (to_invite_ids g))).
  { unfold invite_loop. apply only_for_each. intros t Ht.
    apply only_bind; [|auto with only].
    unfold s_post_invite. apply only_bind; [|auto with only].
    apply only_emit. eauto. }
  destruct (H g e Hin) as (t & -> & Ht). eauto.
Qed.

(** *** The email *)

Lemma read_only_smtp_call (s : MailStep) : read_only (smtp_call net s).
Proof.
  unfold smtp_call. apply read_only_bind; [apply read_only_emit|]. intros _.
  destruct (smtp net s); auto with ro.
Qed.

Lemma only_smtp_call (P : Effect -> Prop) (s : MailStep) :
  P (ESmtp s) -> emits_only P (smtp_call net s).
Proof.
  intros H. unfold smtp_call. apply only_bind; [now apply only_emit|].
  intros _. destruct (smtp net s); auto with only.
Qed.

Lemma read_only_compose_call (c : ComposeStep) : read_only (compose_call net c).
Proof. unfold compose_call. destruct (compose net c); auto with ro. Qed.

Lemma only_compose_call (P : Effect -> Prop) (c : ComposeStep) :
  emits_only P (compose_call net c).
Proof. unfold compose_call. destruct (compose net c); auto with only. Qed.

Lemma read_only_send_email (room : MatrixRoom) (event : RoomMemberEvent)
      (room_type : string) :
  read_only (send_email config net room event room_type).
Proof.
  unfold send_email.
  repeat (first [ apply read_only_smtp_call | apply read_only_compose_call
                | apply read_only_log | apply read_only_lift
                | apply read_only_bind; [|intros ?] ]).
Qed.

Lemma read_only_email_phase (room : MatrixRoom) (event : RoomMemberEvent)
      (room_type : string) :
  read_only (email_phase config net room event room_type).
Proof.
  unfold email_phase. apply read_only_if; [|apply read_only_ret].
  apply read_only_try_except; [apply read_only_send_email|].
  intros e. apply read_only_log.
Qed.

(** What the [try] statement around the email gives: the handler goes
    on, with the exception logged if there was one. *)
Lemma email_phase_run (room : MatrixRoom) (event : RoomMemberEvent)
      (room_type : string) (g : Globals) :
  email_phase config net room event room_type g
  = if existsb (String.eqb (display_name room)) (watched_rooms config) then
      Run g
          (tr (send_email config net room event room_type g)
              ++ match out (send_email config net room event room_type g) with
                 | Ret _ => []
                 | Raise e => [ELog (LEmailException e)]
                 end)
          (Ret tt)
    else Run g [] (Ret tt).
Proof.
  unfold email_phase.
  destruct (existsb _ _); [|reflexivity].
  unfold try_except.
  pose proof (read_only_send_email room event room_type g) as Hst.
  destruct (send_email config net room event room_type g) as [s t o].
  simpl in *. subst s. destruct o as [[]|e]; simpl.
  - now rewrite app_nil_r.
  - reflexivity.
Qed.

Lemma blind_smtp_call (s : MailStep) : registry_blind (smtp_call net s).
Proof.
  unfold smtp_call.
  apply blind_bind; [apply read_only_emit | apply blind_emit |].
  intros _. destruct (smtp net s); [apply blind_raise | apply blind_ret].
Qed.

Lemma blind_compose_call (c : ComposeStep) :
  registry_blind (compose_call net c).
Proof.
  unfold compose_call.
  destruct (compose net c); [apply blind_raise | apply blind_ret].
Qed.

Lemma blind_email_phase (room : MatrixRoom) (event : RoomMemberEvent)
      (room_type : string) :
  registry_blind (email_phase config net room event room_type).
Proof.
  unfold email_phase. destruct (existsb _ _); [|apply blind_ret].
  apply blind_try_except;
    [apply read_only_send_email | | intros x; apply blind_emit].
  unfold send_email.
  repeat (first [ apply blind_smtp_call | apply blind_compose_call
                | apply blind_emit | apply blind_lift
                | apply blind_bind;
                  [ first [ apply read_only_smtp_call
                          | apply read_only_compose_call
                          | apply read_only_log | apply read_only_lift ]
                  | | intros ? ] ]).
Qed.

Lemma email_phase_effects (room : MatrixRoom) (event : RoomMemberEvent)
      (room_type : string) :
  emits_only (email_effect config room event room_type)
             (email_phase config net room event room_type).
Proof.
  unfold email_phase. apply only_if; [|apply only_ret].
  apply only_try_except.
  - unfold send_email.
    repeat (first [ apply only_smtp_call; simpl; auto
                  | apply only_compose_call
                  | apply only_log; exact I
                  | apply only_lift
                  | apply only_bind; [|intros ?] ]).
  - intros e. apply only_log. exact I.
Qed.

Lemma email_phase_watched (room : MatrixRoom) (event : RoomMemberEvent)
      (room_type : string) (g : Globals) (e : Effect) :
  In e (tr (email_phase config net room event room_type g)) ->
  In (display_name room) (watched_rooms config).
Proof.
  rewrite email_phase_run.
  destruct (existsb _ _) eqn:E; [|intros []].
  intros _. apply existsb_exists in E as (n & Hn & Heq).
  apply String.eqb_eq in Heq. now subst.
Qed.

(** *** The handler *)

Lemma read_only_new_member (room : MatrixRoom) (event : RoomMemberEvent) :
  read_only (new_member config net room event).
Proof.
  unfold new_member.
  apply read_only_bind; [apply read_only_invite_phase|].
  intros rt. apply read_only_email_phase.
Qed.

Lemma new_member_run (room : MatrixRoom) (event : RoomMemberEvent)
      (g : Globals) :
  new_member config net room event g
  = match out (invite_phase net room event g) with
    | Raise e => Run g (tr (invite_phase net room event g)) (Raise e)
    | Ret rt =>
        Run g
            (tr (invite_phase net room event g)
                ++ tr (email_phase config net room event rt g))
            (Ret tt)
    end.
Proof.
  unfold new_member, bind. rewrite read_only_invite_phase.
  destruct (out (invite_phase net room event g)) as [rt|e]; [|reflexivity].
  rewrite email_phase_run. destruct (existsb _ _); reflexivity.
Qed.

Lemma notify_not_join (room : MatrixRoom) (event : RoomMemberEvent)
      (g : Globals) :
  is_join event = false ->
  notify config net room event g = Run g [] (Ret tt).
Proof. intros H. unfold notify. rewrite H. reflexivity. Qed.

Lemma notify_run (room : MatrixRoom) (event : RoomMemberEvent) (g : Globals) :
  is_join event = true ->
  notify config net room event g
  = match out (user_already_known net (state_key event) (Some (room_id room)) g) with
    | Raise e =>
        Run g
            (ELog (LNoticed (display_name room) (room_id room))
               :: tr (user_already_known net (state_key event)
                                         (Some (room_id room)) g))
            (Raise e)
    | Ret true =>
        Run g
            (ELog (LNoticed (display_name room) (room_id room))
               :: tr (user_already_known net (state_key event)
                                         (Some (room_id room)) g)
               ++ [ELog LAlreadyKnown])
            (Ret tt)
    | Ret false =>
        Run g
            (ELog (LNoticed (display_name room) (room_id room))
               :: tr (user_already_known net (state_key event)
                                         (Some (room_id room)) g)
               ++ tr (new_member config net room event g))
            (out (new_member config net room event g))
    end.
Proof.
  intros H. unfold notify. rewrite H. unfold bind, log, emit.
  cbn [st tr out app].
  rewrite read_only_user_already_known.
  destruct (out (user_already_known net (state_key event)
                                    (Some (room_id room)) g))
    as [[|]|e]; cbn [st tr out app]; try reflexivity.
  now rewrite read_only_new_member.
Qed.

Lemma read_only_notify (room : MatrixRoom) (event : RoomMemberEvent) :
  read_only (notify config net room event).
Proof.
  intros g. destruct (is_join event) eqn:Hj.
  - rewrite notify_run by assumption.
    destruct (out (user_already_known _ _ _ g)) as [[|]|e]; reflexivity.
  - now rewrite notify_not_join.
Qed.

Lemma invites_of_map (user : string) (l : list pyval) :
  invites_of (map (fun t => EInvite t user) l) = map (fun t => (t, user)) l.
Proof.
  unfold invites_of.
  induction l as [|t l IH]; cbn [map project invite_of]; [reflexivity|].
  now rewrite IH.
Qed.

Lemma side_effect_projections (e : Effect) :
  side_effect e = false -> invite_of e = None /\ sendmail_of e = None.
Proof. destruct e; simpl; try discriminate; auto. Qed.

Lemma is_join_iff (event : RoomMemberEvent) :
  is_join event = true
  <-> membership event = "join"
      /\ prev_membership event <> Some (membership event).
Proof.
  unfold is_join, differs. rewrite andb_true_iff, String.eqb_eq.
  destruct (prev_membership event) as [p|].
  - rewrite negb_true_iff, String.eqb_neq. split.
    + intros [Hm Hp]. split; [assumption|]. intros [= Heq]. apply Hp. congruence.
    + intros [Hm Hp]. split; [assumption|]. intros Heq. apply Hp. congruence.
  - split; intros [Hm _]; (split; [assumption|]); [discriminate | reflexivity].
Qed.

(** An invite request in the trace of the handler: the event is a join,
    its room is the one that [space_id] holds, the subject was found in
    no other watched room, and the request invites the subject to a
    resolved invite target. *)
Lemma invite_only_if (room : MatrixRoom) (event : RoomMemberEvent)
      (g : Globals) (t : pyval) (u : string) :
  In (EInvite t u) (tr (notify config net room event g)) ->
  is_join event = true
  /\ space_id g = PStr (room_id room)
  /\ out (user_already_known net (state_key event) (Some (room_id room)) g)
     = Ret false
  /\ In t (to_invite_ids g)
  /\ u = state_key event.
Proof.
  destruct (is_join event) eqn:Hj;
    [|rewrite notify_not_join by assumption; intros []].
  rewrite notify_run by assumption.
  pose proof (quiet_user_already_known net (state_key event)
                                       (Some (room_id room)) g) as Hq.
  destruct (out (user_already_known _ _ _ g)) as [[|]|e]; cbn [tr].
  - intros [H|H]; [discriminate|].
    apply in_app_or in H as [H|[H|[]]]; [|discriminate].
    apply Hq in H. discriminate.
  - intros [H|H]; [discriminate|].
    apply in_app_or in H as [H|H]; [apply Hq in H; discriminate|].
    rewrite new_member_run in H.
    assert (Hip : In (EInvite t u) (tr (invite_phase net room event g))).
    { destruct (out (invite_phase net room event g)) as [rt|e]; cbn [tr] in H;
        [|assumption].
      apply in_app_or in H as [H|H]; [assumption|].
      apply (email_phase_effects room event rt g) in H. destruct H. }
    apply invite_phase_effects in Hip as (t' & [= -> ->] & Ht & Hs).
    repeat split; assumption.
  - intros [H|H]; [discriminate|]. apply Hq in H. discriminate.
Qed.

(** C1. A join of a user who is in the member list of a watched room
    other than the room of the event: the handler makes no invite
    request and takes no SMTP step, whatever the queries answer before
    that room is reached, and leaves the registry as it is. *)
Theorem known_user_no_side_effect (room : MatrixRoom) (event : RoomMemberEvent)
        (g : Globals) :
  is_join event = true ->
  (exists rid, In rid (watched_room_ids g)
               /\ rid <> PStr (room_id room)
               /\ listed net (state_key event) rid g) ->
  (forall e, In e (tr (notify config net room event g)) -> side_effect e = false)
  /\ invites_of (tr (notify config net room event g)) = []
  /\ emails_of (tr (notify config net room event g)) = []
  /\ st (notify config net room event g) = g.
Proof.
  intros Hj (rid & Hin & Hne & Hl).
  assert (Hq : forall e, In e (tr (notify config net room event g)) ->
                         side_effect e = false).
  { rewrite notify_run by assumption.
    pose proof (quiet_user_already_known net (state_key event)
                                         (Some (room_id room)) g) as Hq.
    destruct (out (user_already_known _ _ _ g)) as [[|]|x] eqn:Ho; cbn [tr].
    - intros e [<-|H]; [reflexivity|].
      apply in_app_or in H as [H|[<-|[]]]; [now apply Hq | reflexivity].
    - exfalso. rewrite user_already_known_run in Ho.
      apply (uak_loop_false net _ _ _ g Ho rid Hin); [|assumption].
      destruct (Py.opt_eq (Some (room_id room)) rid) eqn:E; [|reflexivity].
      apply opt_eq_Some in E. contradiction.
    - intros e [<-|H]; [reflexivity | now apply Hq]. }
  repeat split.
  - exact Hq.
  - apply project_none. intros e He. now apply side_effect_projections, Hq.
  - apply project_none. intros e He. now apply side_effect_projections, Hq.
  - apply read_only_notify.
Qed.

(** C2. An event is treated as a join exactly when its membership is
    ["join"] and differs from its previous membership.  A join makes
    the handler log it and run the check of [user_already_known]
    first; any other event, a repeated ["join"] included, makes it do
    nothing at all; so the handler has an effect exactly for a join. *)
Theorem join_classification (room : MatrixRoom) (event : RoomMemberEvent)
        (g : Globals) :
  (is_join event = true
   <-> membership event = "join"
       /\ prev_membership event <> Some (membership event))
  /\ (is_join event = true ->
      exists rest,
        tr (notify config net room event g)
        = ELog (LNoticed (display_name room) (room_id room))
            :: tr (user_already_known net (state_key event)
                                      (Some (room_id room)) g)
            ++ rest)
  /\ (is_join event = false ->
      notify config net room event g = Run g [] (Ret tt))
  /\ ((exists e, In e (tr (notify config net room event g)))
      <-> is_join event = true).
Proof.
  assert (Hrun : is_join event = true ->
                 exists rest,
                   tr (notify config net room event g)
                   = ELog (LNoticed (display_name room) (room_id room))
                       :: tr (user_already_known net (state_key event)
                                                 (Some (room_id room)) g)
                       ++ rest).
  { intros Hj. rewrite notify_run by assumption.
    destruct (out (user_already_known _ _ _ g)) as [[|]|x]; cbn [tr].
    - eexists; reflexivity.
    - eexists; reflexivity.
    - exists []. now rewrite app_nil_r. }
  split; [apply is_join_iff|]. split; [exact Hrun|].
  split; [apply notify_not_join|]. split.
  - intros [e He]. destruct (is_join event) eqn:Hj; [reflexivity|].
    rewrite notify_not_join in He by assumption. destruct He.
  - intros Hj. destruct (Hrun Hj) as [rest ->]. eexists. now left.
Qed.

(** C4, as the code has it.  A join in the room that [space_id] holds,
    by a user found in no other watched room, with every invite
    request returning a response (of whatever status): the invite
    requests of the handler are, in order, one for each entry of
    [to_invite_ids], each for the subject of the event.  And any invite request that the handler makes, on
    any event, is made under these conditions and for a resolved
    target. *)
Theorem invites_once_per_target (room : MatrixRoom) (event : RoomMemberEvent)
        (g : Globals) :
  is_join event = true ->
  space_id g = PStr (room_id room) ->
  out (user_already_known net (state_key event) (Some (room_id room)) g)
  = Ret false ->
  (forall t, In t (to_invite_ids g) -> invite_answers net (state_key event) t) ->
  invites_of (tr (notify config net room event g))
  = map (fun t => (t, state_key event)) (to_invite_ids g)
  /\ (forall room' event' g' t u,
        In (EInvite t u) (tr (notify config net room' event' g')) ->
        is_join event' = true
        /\ space_id g' = PStr (room_id room')
        /\ out (user_already_known net (state_key event')
                                   (Some (room_id room')) g') = Ret false
        /\ In t (to_invite_ids g')
        /\ u = state_key event').
Proof.
  intros Hj Hs Hk Hans. split; [|intros; now apply invite_only_if].
  rewrite notify_run, Hk by assumption. cbn [tr].
  unfold invites_of. cbn [project invite_of]. rewrite project_app.
  rewrite (project_none invite_of (tr (user_already_known _ _ _ g))).
  2:{ intros e He. apply side_effect_projections.
      eapply (quiet_user_already_known net). exact He. }
  rewrite new_member_run, invite_phase_run.
  apply str_eq_true in Hs. rewrite Hs. cbn [tr out].
  pose proof (invite_loop_answers (state_key event) (to_invite_ids g) [] g Hans)
    as Hl.
  rewrite app_nil_r in Hl. rewrite Hl. cbn [tr out st invite_loop for_each ret].
  rewrite project_app, app_nil_r.
  rewrite (project_none invite_of (tr (email_phase _ _ _ _ _ _))).
  2:{ intros e He. apply (email_phase_effects room event "space" g) in He.
      destruct e as [| | | |[]]; simpl in *; try reflexivity; destruct He. }
  rewrite app_nil_r. apply invites_of_map.
Qed.

(** C5. A message handed to [sendmail] by the handler: the event is a
    join, the subject was found in no other watched room, and the
    display name that the room has at the event is one of
    [watched_rooms], that is the space name or a configured watch
    name; the message is about this subject and this room.  The email
    phase does not read the registry: it runs the same on any
    globals. *)
Theorem email_only_for_watched_name (room : MatrixRoom)
        (event : RoomMemberEvent) (g : Globals) (m : EmailMessage) :
  In (ESmtp (Sendmail m)) (tr (notify config net room event g)) ->
  is_join event = true
  /\ out (user_already_known net (state_key event) (Some (room_id room)) g)
     = Ret false
  /\ In (display_name room) (watched_rooms config)
  /\ (display_name room = space config
      \/ exists ws, watch config = Some ws /\ In (display_name room) ws)
  /\ msg_user m = state_key event
  /\ msg_room_name m = display_name room
  /\ (forall rt g',
        tr (email_phase config net room event rt g')
        = tr (email_phase config net room event rt g)).
Proof.
  intros Hin.
  assert (Hjoin : is_join event = true).
  { destruct (is_join event) eqn:Hj; [reflexivity|].
    rewrite notify_not_join in Hin by assumption. destruct Hin. }
  rewrite notify_run in Hin by assumption.
  pose proof (quiet_user_already_known net (state_key event)
                                       (Some (room_id room)) g) as Hq.
  destruct (out (user_already_known _ _ _ g)) as [[|]|x]; cbn [tr] in Hin.
  - exfalso. destruct Hin as [H|H]; [discriminate|].
    apply in_app_or in H as [H|[H|[]]]; [|discriminate].
    apply Hq in H. discriminate.
  - destruct Hin as [H|H]; [discriminate|].
    apply in_app_or in H as [H|H]; [apply Hq in H; discriminate|].
    rewrite new_member_run in H.
    destruct (out (invite_phase net room event g)) as [rt|x] eqn:Hip;
      cbn [tr] in H.
    2:{ apply invite_phase_effects in H as (t & Ht & _). discriminate. }
    apply in_app_or in H as [H|H].
    { apply invite_phase_effects in H as (t & Ht & _). discriminate. }
    pose proof (email_phase_watched room event rt g _ H) as Hw.
    apply (email_phase_effects room event rt g) in H.
    destruct H as (Hu & Hn & _).
    repeat split; try assumption.
    + unfold watched_rooms in Hw.
      destruct (watch config) as [[|w ws]|] eqn:Ew; simpl in Hw.
      * destruct Hw as [<-|[]]. now left.
      * destruct Hw as [<-|Hw]; [now left|]. right. exists (w :: ws). now split.
      * destruct Hw as [<-|[]]. now left.
    + intros rt' g'. apply blind_email_phase.
  - exfalso. destruct Hin as [H|H]; [discriminate|].
    apply Hq in H. discriminate.
Qed.

(** C7, as the code has it.  In the invite loop of a join in the space
    by a new user, a target whose earlier targets all returned a
    response, refusals by status included, is attempted; and if the
    request for it raises, the loop and the handler end there with
    that exception: no later target is attempted and no SMTP step is
    taken. *)
Theorem invite_failure_by_status_or_raise (room : MatrixRoom)
        (event : RoomMemberEvent) (g : Globals)
        (pre : list pyval) (t : pyval) (post : list pyval) :
  is_join event = true ->
  space_id g = PStr (room_id room) ->
  out (user_already_known net (state_key event) (Some (room_id room)) g)
  = Ret false ->
  to_invite_ids g = pre ++ t :: post ->
  (forall p, In p pre -> invite_answers net (state_key event) p) ->
  (exists rest,
      invites_of (tr (notify config net room event g))
      = map (fun x => (x, state_key event)) (pre ++ [t]) ++ rest)
  /\ (forall e,
        http_post_invite net t (state_key event) = Raise e ->
        notify config net room event g
        = Run g
              (ELog (LNoticed (display_name room) (room_id room))
                 :: tr (user_already_known net (state_key event)
                                           (Some (room_id room)) g)
                 ++ map (fun x => EInvite x (state_key event)) (pre ++ [t]))
              (Raise e)).
Proof.
  intros Hj Hs Hk Hsplit Hans.
  pose proof (invites_of_map (state_key event)) as Hmap.
  unfold invites_of in Hmap.
  apply str_eq_true in Hs.
  rewrite notify_run, Hk by assumption.
  rewrite new_member_run, invite_phase_run, Hs, Hsplit. cbn [tr out st].
  rewrite (invite_loop_answers (state_key event) pre (t :: post) g Hans).
  cbn [tr out st]. split.
  - destruct (invite_loop_first (state_key event) t post g) as [rest Hrest].
    rewrite Hrest.
    unfold invites_of. cbn [project invite_of]. rewrite project_app.
    rewrite (project_none invite_of (tr (user_already_known _ _ _ g))).
    2:{ intros e He. apply side_effect_projections.
        eapply (quiet_user_already_known net). exact He. }
    cbn [app].
    destruct (out (invite_loop net (state_key event) (t :: post) g)) as [[]|x];
      cbn [tr]; rewrite ?project_app, Hmap; cbn [project invite_of].
    + exists (project invite_of rest
                ++ project invite_of
                     (tr (email_phase config net room event "space" g))).
      rewrite map_app, <- !app_assoc. reflexivity.
    + exists (project invite_of rest).
      rewrite map_app, <- app_assoc. reflexivity.
  - intros e He. rewrite (invite_loop_raises (state_key event) t post g e He).
    cbn [tr out st]. rewrite map_app. reflexivity.
Qed.

(** C8. The email of a join raises while it is composed or sent: the
    handler logs the exception and returns normally, the registry as
    it was, and the run of the listener goes on with the events that
    follow. *)
Theorem email_failure_is_caught (room : MatrixRoom) (event : RoomMemberEvent)
        (g : Globals) (room_type : string) (e : exn) :
  is_join event = true ->
  out (user_already_known net (state_key event) (Some (room_id room)) g)
  = Ret false ->
  out (invite_phase net room event g) = Ret room_type ->
  In (display_name room) (watched_rooms config) ->
  out (send_email config net room event room_type g) = Raise e ->
  out (notify config net room event g) = Ret tt
  /\ st (notify config net room event g) = g
  /\ (exists t, tr (notify config net room event g)
                = t ++ [ELog (LEmailException e)])
  /\ (forall rest,
        run_events config ((net, room, event) :: rest) g
        = Run (st (run_events config rest g))
              (tr (notify config net room event g)
                  ++ tr (run_events config rest g))
              (out (run_events config rest g))).
Proof.
  intros Hj Hk Hip Hw He.
  assert (Hout : out (notify config net room event g) = Ret tt).
  { rewrite notify_run, Hk by assumption. cbn [out].
    rewrite new_member_run, Hip. reflexivity. }
  repeat split.
  - exact Hout.
  - apply read_only_notify.
  - rewrite notify_run, Hk by assumption. cbn [tr].
    rewrite new_member_run, Hip. cbn [tr]. rewrite email_phase_run.
    assert (Hex : existsb (String.eqb (display_name room)) (watched_rooms config)
                  = true).
    { apply existsb_exists. exists (display_name room).
      split; [assumption | apply String.eqb_refl]. }
    rewrite Hex, He. cbn [tr].
    eexists. rewrite app_comm_cons, !app_assoc. reflexivity.
  - intros rest. cbn [run_events].
    rewrite (bind_ret _ _ g tt Hout). now rewrite read_only_notify.
Qed.

(** C10. With no watched room id resolved, [user_already_known] asks no
    room and returns [False], for every user and every excluded room;
    the handler then takes every join through the branch of new
    members. *)
Theorem empty_registry_everyone_new (user : string) (excl : option string)
        (room : MatrixRoom) (event : RoomMemberEvent) (g : Globals) :
  watched_room_ids g = [] ->
  user_already_known net user excl g = Run g [] (Ret false)
  /\ (is_join event = true ->
      notify config net room event g
      = Run g
            (ELog (LNoticed (display_name room) (room_id room))
               :: tr (new_member config net room event g))
            (out (new_member config net room event g))).
Proof.
  intros Hw. split; [now apply user_already_known_empty|].
  intros Hj. rewrite notify_run by assumption.
  rewrite (user_already_known_empty net _ _ g Hw). reflexivity.
Qed.

End Handler.

Section Resolution.

Variable config : Config.
Variable net : Net.

Lemma globals_eta (g : Globals) :
  {| space_id := space_id g;
     watched_room_ids := watched_room_ids g ++ [];
     to_invite_ids := to_invite_ids g ++ [] |} = g.
Proof. destruct g; simpl. now rewrite !app_nil_r. Qed.

(** One round of the loop over the joined rooms, for a room whose
    queries do not raise. *)
Lemma populate_room_run (rid : pyval) (g : Globals) :
  resolvable config net rid ->
  exists t,
    populate_room config net rid g
    = Run {| space_id := if named_space config net rid then rid else space_id g;
             watched_room_ids :=
               watched_room_ids g
                 ++ (if named_in net (watched_rooms config) rid then [rid] else []);
             to_invite_ids :=
               to_invite_ids g
                 ++ (if named_in net (to_invite config) rid then [rid] else []) |}
          t (Ret tt).
Proof.
  intros (r & Hr & Hname & Hmem).
  unfold named_space, named_in, resolved_name in *. rewrite Hr in *.
  unfold populate_room. rewrite (s_get_bind net _ _ g r Hr).
  destruct (status_code r =? 200) eqn:Es; cbn [negb].
  2:{ cbn [ret st tr out app]. rewrite globals_eta. eexists; reflexivity. }
  apply Z.eqb_eq in Es. destruct (Hname Es) as [n Hn]. rewrite Hn in *.
  assert (Hw : exists t1,
             (if Py.in_strs n (watched_rooms config)
              then ms <- room_members net rid ;;
                   log (LMembers (List.length ms)) ;; modify (append_watched rid)
              else ret tt) g
             = Run (set_watched_room_ids
                      (watched_room_ids g
                         ++ (if Py.in_strs n (watched_rooms config)
                             then [rid] else [])) g)
                   t1 (Ret tt)).
  { destruct (Py.in_strs n (watched_rooms config)).
    - destruct (room_members_answers net rid g (Hmem eq_refl)) as (ms & Hms & _).
      rewrite (bind_ret _ _ g ms Hms). rewrite read_only_room_members.
      eexists. reflexivity.
    - unfold set_watched_room_ids. rewrite app_nil_r.
      destruct g; eexists; reflexivity. }
  destruct Hw as [t1 Hw].
  rewrite (bind_run (lift (Ret n)) _ g g [] n eq_refl).
  rewrite (bind_run (log (LSubscribed n)) _ g g [ELog (LSubscribed n)] tt eq_refl).
  rewrite (bind_run _ _ g _ t1 tt Hw).
  destruct (Py.str_eq (space config) n), (Py.in_strs n (to_invite config));
    cbn; rewrite ?app_nil_r; eexists; reflexivity.
Qed.

Lemma last_named_space_step (rid : pyval) (rest : list pyval) (old : pyval) :
  match last_named_space config net rest with
  | Some s => s
  | None => if named_space config net rid then rid else old
  end
  = match last_named_space config net (rid :: rest) with
    | Some s => s
    | None => old
    end.
Proof.
  simpl. destruct (last_named_space config net rest); [reflexivity|].
  destruct (named_space config net rid); reflexivity.
Qed.

(** The whole loop: the rooms with a watched name are appended to
    [watched_room_ids], those with an invite name to [to_invite_ids],
    in the order of the room list, and [space_id] is assigned for each
    room that carries the space name. *)
Lemma populate_loop_run (rooms : list pyval) (g : Globals) :
  Forall (resolvable config net) rooms ->
  exists t,
    for_each rooms (populate_room config net) g
    = Run {| space_id := match last_named_space config net rooms with
                         | Some s => s
                         | None => space_id g
                         end;
             watched_room_ids :=
               watched_room_ids g
                 ++ filter (named_in net (watched_rooms config)) rooms;
             to_invite_ids :=
               to_invite_ids g
                 ++ filter (named_in net (to_invite config)) rooms |}
          t (Ret tt).
Proof.
  intros Hall. revert g.
  induction Hall as [|rid rest Hrid _ IH]; intros g.
  - simpl. rewrite globals_eta. eexists; reflexivity.
  - destruct (populate_room_run rid g Hrid) as [t1 H1].
    cbn [for_each]. unfold bind. rewrite H1. cbn [st tr out].
    match goal with |- context [for_each rest _ ?g1] =>
      destruct (IH g1) as [t2 H2]; rewrite H2 end.
    cbn [st tr out space_id watched_room_ids to_invite_ids].
    rewrite last_named_space_step, <- !app_assoc.
    exists (t1 ++ t2). f_equal. f_equal.
    + cbn [filter]. destruct (named_in net (watched_rooms config) rid); reflexivity.
    + cbn [filter]. destruct (named_in net (to_invite config) rid); reflexivity.
Qed.

(** C9, as the code has it.  With the room list query answered:
    an answer of another status than [200], or a body without
    ["joined_rooms"], leaves the three globals as they were; an answer
    with the room list, the queries about its rooms not raising, makes
    [watched_room_ids] and [to_invite_ids] the rooms of that list with
    a watched name and with an invite name, nothing of their former
    contents kept, and makes [space_id] the last room of the list that
    carries the space name when there is one. *)
Theorem populate_recomputes_lists (g : Globals) (r : Response) :
  http_get net JoinedRooms = Ret r ->
  ((status_code r <> 200
    \/ exists e, Py.obind (json r) (fun v => Py.getitem v "joined_rooms") = Raise e) ->
   st (populate_watched_room_ids config net g) = g
   /\ out (populate_watched_room_ids config net g) = Ret (PList []))
  /\ (forall ids rooms,
        status_code r = 200 ->
        Py.obind (json r) (fun v => Py.getitem v "joined_rooms") = Ret ids ->
        Py.iter ids = Ret rooms ->
        Forall (resolvable config net) rooms ->
        out (populate_watched_room_ids config net g) = Ret PNone
        /\ watched_room_ids (st (populate_watched_room_ids config net g))
           = filter (named_in net (watched_rooms config)) rooms
        /\ to_invite_ids (st (populate_watched_room_ids config net g))
           = filter (named_in net (to_invite config)) rooms
        /\ (forall s, last_named_space config net rooms = Some s ->
                      space_id (st (populate_watched_room_ids config net g)) = s)).
Proof.
  intros Hr.
  unfold populate_watched_room_ids. rewrite (s_get_bind net _ _ g r Hr).
  cbn [st tr out]. split.
  - intros Hfail.
    destruct (status_code r =? 200) eqn:Es; cbn [negb]; [|split; reflexivity].
    destruct Hfail as [Hs|[e He]]; [apply Z.eqb_eq in Es; contradiction|].
    erewrite bind_run;
      [|unfold try_except, bind; rewrite He; cbn; reflexivity].
    split; reflexivity.
  - intros ids rooms Hs Hids Hit Hall.
    apply Z.eqb_eq in Hs. rewrite Hs. cbn [negb].
    erewrite bind_run;
      [|unfold try_except, bind; rewrite Hids; cbn; reflexivity].
    cbn beta iota.
    rewrite (bind_run (modify (set_watched_room_ids [])) _ g _ [] tt eq_refl).
    rewrite (bind_run (modify (set_to_invite_ids [])) _ _ _ [] tt eq_refl).
    rewrite Hit.
    rewrite (bind_run (lift (Ret rooms)) _ _ _ [] rooms eq_refl).
    cbn beta.
    destruct (populate_loop_run
                rooms (set_to_invite_ids [] (set_watched_room_ids [] g)) Hall)
      as [t H].
    rewrite (bind_run _ _ _ _ t tt H).
    rewrite (bind_run get _ _ _ [] _ eq_refl).
    cbn [st tr out set_watched_room_ids set_to_invite_ids space_id
         watched_room_ids to_invite_ids app].
    match goal with |- context [if ?b then _ else _] => destruct b end;
      cbn; (repeat split; try reflexivity; intros s Hsp; now rewrite Hsp).
Qed.

End Resolution.

(** C3: bob is in the member list of RoomA, a watched room that is not
    the excluded one, but the query of the space, which comes first,
    raises: [user_already_known] does not return [True], it raises. *)
Lemma membership_query_raise_hides_member :
  watched_room_ids Demo.resolved = [PStr "!space"; PStr "!a"]
  /\ Py.opt_eq (Some "!x") (PStr "!a") = false
  /\ listed Demo.net_space_members_down "@bob" (PStr "!a") Demo.resolved
  /\ user_already_known Demo.net_space_members_down "@bob" (Some "!x")
                        Demo.resolved
     = Run Demo.resolved [EGet (Members (PStr "!space"))] (Raise ConnectionError).
Proof.
  repeat split. exists [PStr "@bob"]. split; reflexivity.
Qed.

(** C3, evaluated: alice is found in the space, the first watched
    room; RoomA, which comes after it and is not excluded, would raise
    and is not asked. *)
Lemma user_already_known_iff_witness :
  exists b,
    user_already_known Demo.net_room_a_members_down "@alice" (Some "!x")
                       Demo.resolved
    = Run Demo.resolved
          (tr (user_already_known Demo.net_room_a_members_down "@alice"
                                  (Some "!x") Demo.resolved))
          (Ret b)
    /\ (b = true <->
        exists rid, In rid (watched_room_ids Demo.resolved)
                    /\ Py.opt_eq (Some "!x") rid = false
                    /\ listed Demo.net_room_a_members_down "@alice" rid
                              Demo.resolved)
    /\ (b = true ->
        exists pre rid post,
          watched_room_ids Demo.resolved = pre ++ rid :: post
          /\ Py.opt_eq (Some "!x") rid = false
          /\ listed Demo.net_room_a_members_down "@alice" rid Demo.resolved
          /\ (forall r', In r' pre -> Py.opt_eq (Some "!x") r' = false ->
                         ~ listed Demo.net_room_a_members_down "@alice" r'
                                  Demo.resolved)
          /\ gets_of (tr (user_already_known Demo.net_room_a_members_down
                                             "@alice" (Some "!x") Demo.resolved))
             = map Members
                   (filter (fun r => negb (Py.opt_eq (Some "!x") r)) pre ++ [rid])).
Proof.
  apply (user_already_known_iff Demo.net_room_a_members_down "@alice"
                                (Some "!x") Demo.resolved).
  intros pre rid post Heq _ Hpre.
  destruct pre as [|p pre].
  - injection Heq as <- _. eexists. reflexivity.
  - injection Heq as <- Heq. exfalso.
    apply (Hpre (PStr "!space")); [now left | reflexivity|].
    exists [PStr "@alice"]. split; reflexivity.
Defined.

(** C1, evaluated: alice, a member of the space, joins RoomA. *)
Lemma known_user_no_side_effect_witness :
  (forall e,
      In e (tr (notify Demo.config Demo.net Demo.room_a (Demo.joins "@alice")
                       Demo.resolved)) ->
      side_effect e = false)
  /\ invites_of (tr (notify Demo.config Demo.net Demo.room_a
                            (Demo.joins "@alice") Demo.resolved)) = []
  /\ emails_of (tr (notify Demo.config Demo.net Demo.room_a
                           (Demo.joins "@alice") Demo.resolved)) = []
  /\ st (notify Demo.config Demo.net Demo.room_a (Demo.joins "@alice")
                Demo.resolved) = Demo.resolved.
Proof.
  apply (known_user_no_side_effect Demo.config Demo.net Demo.room_a
                                   (Demo.joins "@alice") Demo.resolved).
  - reflexivity.
  - exists (PStr "!space"). split; [now left|]. split; [discriminate|].
    exists [PStr "@alice"]. split; reflexivity.
Defined.

(** C4: dave, new, joins the space while the homeserver cannot be
    reached for invite requests.  The conditions of the claim hold;
    the request for RoomB raises, and RoomC, a resolved invite target,
    gets no invite request. *)
Lemma unreachable_invite_leaves_target_out :
  is_join (Demo.joins "@dave") = true
  /\ space_id Demo.resolved = PStr (room_id Demo.the_space)
  /\ out (user_already_known Demo.net_invite_unreachable "@dave"
                             (Some "!space") Demo.resolved) = Ret false
  /\ invites_of (tr (notify Demo.config Demo.net_invite_unreachable
                            Demo.the_space (Demo.joins "@dave") Demo.resolved))
     = [(PStr "!b", "@dave")]
  /\ invites_of (tr (notify Demo.config Demo.net_invite_unreachable
                            Demo.the_space (Demo.joins "@dave") Demo.resolved))
     <> map (fun t => (t, "@dave")) (to_invite_ids Demo.resolved).
Proof. repeat split. discriminate. Qed.

(** C4, evaluated: carol, new, joins the space and is invited to RoomB
    and to RoomC, once each. *)
Lemma invites_once_per_target_witness :
  invites_of (tr (notify Demo.config Demo.net Demo.the_space
                         (Demo.joins "@carol") Demo.resolved))
  = [(PStr "!b", "@carol"); (PStr "!c", "@carol")].
Proof.
  apply (invites_once_per_target Demo.config Demo.net Demo.the_space
                                 (Demo.joins "@carol") Demo.resolved).
  - reflexivity.
  - reflexivity.
  - reflexivity.
  - intros t _. eexists. reflexivity.
Defined.

(** C5, evaluated: carol joins a room that carries the name "RoomA"
    but whose id is not among [watched_room_ids]; the email is sent. *)
Lemma email_only_for_watched_name_witness :
  is_join (Demo.joins "@carol") = true
  /\ out (user_already_known Demo.net "@carol" (Some "!x") Demo.resolved)
     = Ret false
  /\ In "RoomA" (watched_rooms Demo.config)
  /\ ~ In (PStr "!x") (watched_room_ids Demo.resolved).
Proof.
  destruct (email_only_for_watched_name
              Demo.config Demo.net Demo.room_renamed (Demo.joins "@carol")
              Demo.resolved (Demo.mail_about "@carol" "room" "RoomA"))
    as (Hj & Hk & Hw & _).
  - vm_compute. do 9 right. left. reflexivity.
  - repeat split; try assumption.
    intros [H|[H|[]]]; discriminate.
Defined.

(** C6, evaluated: the members of the space, and a room that the
    homeserver answers with [404]. *)
Lemma room_members_degrades_witness :
  room_members Demo.net (PStr "!space") Demo.resolved
  = Run Demo.resolved [EGet (Members (PStr "!space"))] (Ret [PStr "@alice"])
  /\ room_members Demo.net (PStr "!gone") Demo.resolved
     = Run Demo.resolved [EGet (Members (PStr "!gone"))] (Ret []).
Proof.
  split.
  - apply (proj1 (room_members_degrades
                    Demo.net (PStr "!space") Demo.resolved
                    {| status_code := 200;
                       json := Ret (PDict [("chunk", PList [Demo.member "@alice"])]) |}
                    eq_refl)
                 (PDict [("chunk", PList [Demo.member "@alice"])])
                 [Demo.member "@alice"] [PStr "@alice"]);
      try reflexivity.
    repeat constructor.
  - apply (proj1 (proj2 (room_members_degrades
                           Demo.net (PStr "!gone") Demo.resolved
                           {| status_code := 404;
                              json := Ret (PDict [("errcode", PStr "M_NOT_FOUND")]) |}
                           eq_refl))).
    discriminate.
Defined.

(** C7: the request for RoomB raises in the transport.  RoomC, a
    resolved invite target, gets no invite request, and the handler
    ends with the exception. *)
Lemma invite_raise_stops_the_loop :
  to_invite_ids Demo.resolved = [PStr "!b"; PStr "!c"]
  /\ invites_of (tr (notify Demo.config Demo.net_invite_down Demo.the_space
                            (Demo.joins "@carol") Demo.resolved))
     = [(PStr "!b", "@carol")]
  /\ ~ In (PStr "!c", "@carol")
         (invites_of (tr (notify Demo.config Demo.net_invite_down Demo.the_space
                                 (Demo.joins "@carol") Demo.resolved)))
  /\ out (notify Demo.config Demo.net_invite_down Demo.the_space
                 (Demo.joins "@carol") Demo.resolved)
     = Raise ConnectionError.
Proof.
  repeat split.
  intros [H|[]]. discriminate.
Qed.

(** C7, evaluated: RoomB refuses the invitation with status 403, and
    RoomC is attempted all the same. *)
Lemma invite_failure_by_status_or_raise_witness :
  exists rest,
    invites_of (tr (notify Demo.config Demo.net_invite_forbidden Demo.the_space
                           (Demo.joins "@carol") Demo.resolved))
    = [(PStr "!b", "@carol"); (PStr "!c", "@carol")] ++ rest.
Proof.
  apply (invite_failure_by_status_or_raise
           Demo.config Demo.net_invite_forbidden Demo.the_space
           (Demo.joins "@carol") Demo.resolved [PStr "!b"] (PStr "!c") []).
  - reflexivity.
  - reflexivity.
  - reflexivity.
  - reflexivity.
  - intros p [<-|[]]. eexists. reflexivity.
Defined.

(** C8, evaluated: the mail server refuses the login; the handler
    returns and the next event is handled. *)
Lemma email_failure_is_caught_witness :
  out (notify Demo.config Demo.net_smtp_down Demo.room_a (Demo.joins "@carol")
              Demo.resolved) = Ret tt
  /\ forall rest,
      run_events Demo.config
                 ((Demo.net_smtp_down, Demo.room_a, Demo.joins "@carol") :: rest)
                 Demo.resolved
      = Run (st (run_events Demo.config rest Demo.resolved))
            (tr (notify Demo.config Demo.net_smtp_down Demo.room_a
                        (Demo.joins "@carol") Demo.resolved)
                ++ tr (run_events Demo.config rest Demo.resolved))
            (out (run_events Demo.config rest Demo.resolved)).
Proof.
  destruct (email_failure_is_caught
              Demo.config Demo.net_smtp_down Demo.room_a (Demo.joins "@carol")
              Demo.resolved "room" SMTPException)
    as (Hout & _ & _ & Hrun).
  - reflexivity.
  - reflexivity.
  - reflexivity.
  - right. now left.
  - reflexivity.
  - split; assumption.
Defined.

(** C9: a second resolution, after the space was renamed, keeps the
    [space_id] of the first, although no joined room carries the space
    name any more and a resolution from the initial globals finds
    none; and a resolution whose room list query fails keeps the
    former registry, here the invite targets that the listener
    resolved at its first start, when the bot had joined them only. *)
Lemma populate_keeps_stale_space_id :
  st (populate_watched_room_ids Demo.config Demo.net initial_globals)
  = Demo.resolved
  /\ last_named_space Demo.config Demo.net_renamed Demo.joined_rooms = None
  /\ space_id (st (populate_watched_room_ids Demo.config Demo.net_renamed
                                             Demo.resolved))
     = PStr "!space"
  /\ space_id (st (populate_watched_room_ids Demo.config Demo.net_renamed
                                             initial_globals))
     = PNone
  /\ st (room_joined Demo.config Demo.net_only_targets "!b" initial_globals)
     = {| space_id := PNone; watched_room_ids := [];
          to_invite_ids := [PStr "!b"; PStr "!c"] |}
  /\ st (room_joined Demo.config Demo.net_list_down "!b"
                     (st (room_joined Demo.config Demo.net_only_targets "!b"
                                      initial_globals)))
     = {| space_id := PNone; watched_room_ids := [];
          to_invite_ids := [PStr "!b"; PStr "!c"] |}
  /\ st (populate_watched_room_ids Demo.config Demo.net_list_down initial_globals)
     = initial_globals.
Proof. repeat split. Qed.

(** C9, evaluated: the resolution after the rename, from the registry
    of the first resolution. *)
Lemma populate_recomputes_lists_witness :
  out (populate_watched_room_ids Demo.config Demo.net_renamed Demo.resolved)
  = Ret PNone
  /\ watched_room_ids
       (st (populate_watched_room_ids Demo.config Demo.net_renamed Demo.resolved))
     = [PStr "!a"]
  /\ to_invite_ids
       (st (populate_watched_room_ids Demo.config Demo.net_renamed Demo.resolved))
     = [PStr "!b"; PStr "!c"].
Proof.
  destruct (proj2 (populate_recomputes_lists
                     Demo.config Demo.net_renamed Demo.resolved
                     {| status_code := 200;
                        json := Ret (PDict [("joined_rooms",
                                             PList Demo.joined_rooms)]) |}
                     eq_refl)
                  (PList Demo.joined_rooms) Demo.joined_rooms
                  eq_refl eq_refl eq_refl)
    as (Hout & Hw & Hi & _).
  - repeat constructor;
      (eexists; split; [reflexivity|]; split;
       [intros _; eexists; reflexivity | intros _; eexists; reflexivity]).
  - repeat split; assumption.
Defined.

(** C10, evaluated: before any resolution, alice joins RoomA. *)
Lemma empty_registry_everyone_new_witness :
  user_already_known Demo.net "@alice" (Some "!a") initial_globals
  = Run initial_globals [] (Ret false)
  /\ (is_join (Demo.joins "@alice") = true ->
      notify Demo.config Demo.net Demo.room_a (Demo.joins "@alice")
             initial_globals
      = Run initial_globals
            (ELog (LNoticed "RoomA" "!a")
               :: tr (new_member Demo.config Demo.net Demo.room_a
                                 (Demo.joins "@alice") initial_globals))
            (out (new_member Demo.config Demo.net Demo.room_a
                             (Demo.joins "@alice") initial_globals))).
Proof.
  apply (empty_registry_everyone_new Demo.config Demo.net "@alice" (Some "!a")
                                     Demo.room_a (Demo.joins "@alice")
                                     initial_globals).
  reflexivity.
Defined.

(** * Further properties of the script *)

(** ** Reading the passwords from standard input *)

Lemma readline_line (p rest : string) :
  has_newline p = false ->
  readline (p ++ String newline rest)%string = ((p ++ String newline "")%string, rest).
Proof.
  induction p as [|c p IH]; cbn [String.append readline has_newline]; intros H.
  - reflexivity.
  - apply orb_false_iff in H as [Hc Hp]. rewrite Hc, (IH Hp). reflexivity.
Qed.

Lemma rstrip_newline_line (p : string) :
  has_newline p = false ->
  rstrip_newline (p ++ String newline "")%string = p.
Proof.
  induction p as [|c p IH]; cbn [String.append rstrip_newline has_newline]; intros H.
  - reflexivity.
  - apply orb_false_iff in H as [Hc Hp]. rewrite (IH Hp).
    destruct p; [now rewrite Hc | reflexivity].
Qed.

Lemma read_password_line (p rest : string) :
  has_newline p = false ->
  read_password "-" (p ++ String newline rest)%string = (p, rest).
Proof.
  intros H. unfold read_password. cbn [String.eqb Ascii.eqb Bool.eqb].
  rewrite (readline_line p rest H), (rstrip_newline_line p H). reflexivity.
Qed.

Lemma rstrip_newline_clean (s : string) :
  has_newline s = false -> rstrip_newline s = s.
Proof.
  induction s as [|c s IH]; cbn [rstrip_newline has_newline]; intros H.
  - reflexivity.
  - apply orb_false_iff in H as [Hc Hs]. rewrite (IH Hs).
    destruct s; [now rewrite Hc | reflexivity].
Qed.

(** A line of [readline] is free of newlines but for a last one. *)
Lemma readline_shape (stdin : string) :
  exists p, has_newline p = false
            /\ (fst (readline stdin) = p
                \/ fst (readline stdin) = (p ++ String newline "")%string).
Proof.
  induction stdin as [|c rest IH]; cbn [readline].
  - exists ""%string. split; [reflexivity | now left].
  - destruct (Ascii.eqb c newline) eqn:Ec.
    + exists ""%string. split; [reflexivity|]. right.
      apply Ascii.eqb_eq in Ec. now subst.
    + destruct (readline rest) as [line rest'] eqn:Er.
      destruct IH as (p & Hp & Hl). exists (String c p).
      cbn [has_newline fst String.append] in *. rewrite Ec, Hp.
      split; [reflexivity|]. destruct Hl as [->| ->]; [now left | now right].
Qed.

(** X1. Both passwords given as ["-"], and standard input holding the
    matrix password and then the SMTP password, a line each: the
    script gets the two passwords back, neither with its newline, and
    leaves the rest of the input unread. *)
Theorem passwords_round_trip (p1 p2 rest : string) :
  has_newline p1 = false ->
  has_newline p2 = false ->
  read_passwords "-" "-"
                 (p1 ++ String newline (p2 ++ String newline rest))%string
  = (p1, p2, rest).
Proof.
  intros H1 H2. unfold read_passwords.
  rewrite (read_password_line p1 _ H1), (read_password_line p2 _ H2).
  reflexivity.
Qed.

Lemma passwords_round_trip_witness :
  read_passwords "-" "-"
                 ("s3cret" ++ String newline ("m4il" ++ String newline "more"))%string
  = ("s3cret"%string, "m4il"%string, "more"%string).
Proof.
  apply (passwords_round_trip "s3cret" "m4il" "more"); reflexivity.
Defined.

(** X2. A password taken from standard input never holds a newline,
    whatever the input is; on an input that is at its end it is the
    empty string.  A password given on the command line is used as it
    is and no input is read for it. *)
Theorem password_from_stdin_has_no_newline (given stdin : string) :
  (given = "-"%string ->
   has_newline (fst (read_password given stdin)) = false
   /\ (stdin = ""%string -> fst (read_password given stdin) = ""%string))
  /\ (given <> "-"%string -> read_password given stdin = (given, stdin)).
Proof.
  split.
  - intros ->. unfold read_password. cbn [String.eqb Ascii.eqb Bool.eqb].
    destruct (readline_shape stdin) as (p & Hp & Hl).
    destruct (readline stdin) as [line rest] eqn:Er. cbn [fst] in *. split.
    + destruct Hl as [->| ->].
      * now rewrite rstrip_newline_clean.
      * now rewrite rstrip_newline_line.
    + intros ->. cbn in Er. now inversion Er.
  - intros Hne. unfold read_password.
    apply String.eqb_neq in Hne. now rewrite Hne.
Qed.

(** ** The membership oracle on malformed answers *)

Lemma comprehension_raises {A B} (f : A -> outcome B) (l : list A) :
  (exists x, In x l /\ forall y, f x <> Ret y) ->
  exists e, Py.comprehension f l = Raise e.
Proof.
  induction l as [|a l IH]; intros (x & Hin & Hx); [destruct Hin|].
  cbn [Py.comprehension]. destruct (f a) as [b|e] eqn:Ea; cbn [Py.obind].
  - destruct Hin as [->|Hin]; [now destruct (Hx b)|].
    destruct IH as [e He]; [eauto|]. rewrite He. eexists; reflexivity.
  - eexists; reflexivity.
Qed.

Lemma comprehension_strs (l : list string) :
  Py.comprehension (fun umap => Py.getitem umap "user_id") (map PStr l)
  = match l with [] => Ret [] | _ => Raise TypeError end.
Proof. destruct l; reflexivity. Qed.

Lemma chars_strs (s : string) : exists l, Py.chars s = map PStr l.
Proof.
  induction s as [|c s [l IH]]; [now exists []|].
  exists (String c "" :: l). cbn. now rewrite IH.
Qed.

Section MalformedMembers.

Variable net : Net.

(** X3. A [200] answer whose ["chunk"] is a list with one entry that
    carries no ["user_id"]: [room_members] logs the exception and
    returns the empty list; the user ids of the other entries are
    dropped with it. *)
Theorem room_members_all_or_nothing (rid : pyval) (g : Globals) (r : Response)
        (v : pyval) (umaps : list pyval) :
  http_get net (Members rid) = Ret r ->
  status_code r = 200 ->
  json r = Ret v ->
  Py.getitem v "chunk" = Ret (PList umaps) ->
  (exists umap, In umap umaps /\ forall u, Py.getitem umap "user_id" <> Ret u) ->
  exists e,
    room_members net rid g
    = Run g [EGet (Members rid); ELog (LRoomMembers e)] (Ret []).
Proof.
  intros Hr Hs Hv Hc Hbad.
  destruct (comprehension_raises _ umaps Hbad) as [e He].
  exists e. rewrite room_members_run, Hr, Hs. cbn [Z.eqb Pos.eqb].
  unfold chunk_user_ids. rewrite Hv. cbn [Py.obind]. rewrite Hc.
  cbn [Py.obind Py.iter]. rewrite He. reflexivity.
Qed.

(** X4. A [200] answer whose ["chunk"] is not a list, an object or a
    string included: [room_members] returns the empty list. *)
Theorem room_members_chunk_not_a_list (rid : pyval) (g : Globals) (r : Response)
        (v c : pyval) :
  http_get net (Members rid) = Ret r ->
  status_code r = 200 ->
  json r = Ret v ->
  Py.getitem v "chunk" = Ret c ->
  (forall l, c <> PList l) ->
  out (room_members net rid g) = Ret [] /\ st (room_members net rid g) = g.
Proof.
  intros Hr Hs Hv Hc Hnl. split; [|apply read_only_room_members].
  rewrite room_members_run, Hr, Hs. cbn [Z.eqb Pos.eqb].
  unfold chunk_user_ids. rewrite Hv. cbn [Py.obind]. rewrite Hc.
  cbn [Py.obind].
  destruct c as [| | | |s|l|d]; cbn [Py.iter Py.obind]; try reflexivity.
  - destruct (chars_strs s) as [l ->]. rewrite comprehension_strs.
    destruct l; reflexivity.
  - now destruct (Hnl l).
  - replace (map (fun kv : string * pyval => PStr (fst kv)) d)
      with (map PStr (map fst d)) by (now rewrite map_map).
    rewrite comprehension_strs. destruct (map fst d); reflexivity.
Qed.

Lemma room_members_gets (rid : pyval) (g : Globals) :
  gets_of (tr (room_members net rid g)) = [Members rid].
Proof.
  rewrite room_members_run.
  destruct (http_get net (Members rid)) as [r|e]; [|reflexivity].
  destruct (status_code r =? 200); [|reflexivity].
  destruct (chunk_user_ids r); reflexivity.
Qed.

Lemma room_members_effects (rid : pyval) (g : Globals) (e : Effect) :
  In e (tr (room_members net rid g)) ->
  e = EGet (Members rid) \/ exists m, e = ELog m.
Proof.
  rewrite room_members_run.
  destruct (http_get net (Members rid)) as [r|x]; cbn [tr].
  - destruct (status_code r =? 200); [destruct (chunk_user_ids r)|]; cbn [tr];
      intros H; repeat destruct H as [<-|H]; try destruct H; eauto.
  - intros [<-|[]]. now left.
Qed.

Lemma uak_loop_gets (user : string) (excl : option string) (rooms : list pyval)
      (g : Globals) :
  exists k,
    gets_of (tr (user_already_known_loop net user excl rooms g))
    = map Members (firstn k (filter (fun r => negb (Py.opt_eq excl r)) rooms)).
Proof.
  induction rooms as [|r rest [k IH]]; [exists 0%nat; reflexivity|].
  destruct (Py.opt_eq excl r) eqn:Er.
  - rewrite uak_loop_skip by assumption. exists k. cbn [filter]. now rewrite Er.
  - rewrite uak_loop_step by assumption. cbn [filter]. rewrite Er. cbn [negb].
    pose proof (room_members_gets r g) as Hq.
    destruct (out (room_members net r g)) as [ms|x]; cbn [tr].
    + destruct (Py.str_in user ms); cbn [tr].
      * exists 1%nat. rewrite app_nil_r, Hq. reflexivity.
      * exists (S k). unfold gets_of in *. rewrite project_app, Hq, IH.
        reflexivity.
    + exists 1%nat. rewrite Hq. reflexivity.
Qed.

Lemma uak_loop_effects (user : string) (excl : option string)
      (rooms : list pyval) (g : Globals) (e : Effect) :
  In e (tr (user_already_known_loop net user excl rooms g)) ->
  (exists rid, e = EGet (Members rid) /\ In rid rooms
               /\ Py.opt_eq excl rid = false)
  \/ exists m, e = ELog m.
Proof.
  induction rooms as [|r rest IH]; [intros []|].
  destruct (Py.opt_eq excl r) eqn:Er.
  - rewrite uak_loop_skip by assumption. intros H.
    destruct (IH H) as [(rid & -> & Hin & Hex)|Hl]; [left|now right].
    exists rid. repeat split; [now right | assumption].
  - rewrite uak_loop_step by assumption.
    assert (Hrm : forall e', In e' (tr (room_members net r g)) ->
                  (exists rid, e' = EGet (Members rid) /\ In rid (r :: rest)
                               /\ Py.opt_eq excl rid = false)
                  \/ exists m, e' = ELog m).
    { intros e' He'. apply room_members_effects in He' as [->|Hl]; [left|now right].
      exists r. repeat split; [now left | assumption]. }
    destruct (out (room_members net r g)) as [ms|x]; cbn [tr].
    + destruct (Py.str_in user ms); cbn [tr]; intros H;
        apply in_app_or in H as [H|H]; try (now apply Hrm);
        try (now destruct H).
      destruct (IH H) as [(rid & -> & Hin & Hex)|Hl]; [left|now right].
      exists rid. repeat split; [now right | assumption].
    + apply Hrm.
Qed.

(** X5. [user_already_known] asks the homeserver for nothing but the
    members of watched rooms, each at most once and in the order of
    [watched_room_ids]: its queries are those of the first so many
    watched rooms that do not equal [exclude_room].  It never asks
    about the excluded room, and it leaves the registry as it is.
    This holds also when a query raises. *)
Theorem user_already_known_queries (user : string) (excl : option string)
        (g : Globals) :
  (exists k,
      gets_of (tr (user_already_known net user excl g))
      = map Members
            (firstn k (filter (fun r => negb (Py.opt_eq excl r))
                              (watched_room_ids g))))
  /\ (forall rid, In (EGet (Members rid))
                     (tr (user_already_known net user excl g)) ->
                  In rid (watched_room_ids g) /\ Py.opt_eq excl rid = false)
  /\ st (user_already_known net user excl g) = g.
Proof.
  rewrite user_already_known_run. split; [apply uak_loop_gets|]. split.
  - intros rid H. apply uak_loop_effects in H as [(rid' & Heq & Hin & Hex)|[m Hm]].
    + injection Heq as ->. now split.
    + discriminate.
  - apply read_only_uak_loop.
Qed.

End MalformedMembers.

(** ** What the handler does and does not do *)

Lemma emails_bind_le {A B} (m : M A) (k : A -> M B) (a b : nat) :
  (forall g, (List.length (emails_of (tr (m g))) <= a)%nat) ->
  (forall x g, (List.length (emails_of (tr (k x g))) <= b)%nat) ->
  forall g, (List.length (emails_of (tr (bind m k g))) <= a + b)%nat.
Proof.
  intros Hm Hk g. unfold bind. specialize (Hm g).
  destruct (out (m g)) as [x|e]; cbn [tr].
  - unfold emails_of in *. rewrite project_app, length_app.
    specialize (Hk x (st (m g))). lia.
  - lia.
Qed.

Section HandlerEffects.

Variable config : Config.
Variable net : Net.

Lemma smtp_call_trace (s : MailStep) (g : Globals) :
  tr (smtp_call net s g) = [ESmtp s].
Proof.
  unfold smtp_call, bind, emit. cbn [st tr out].
  destruct (smtp net s); reflexivity.
Qed.

Lemma send_email_one_mail (room : MatrixRoom) (event : RoomMemberEvent)
      (room_type : string) (g : Globals) :
  (List.length (emails_of (tr (send_email config net room event room_type g)))
   <= 1)%nat.
Proof.
  revert g. unfold send_email.
  assert (Hstep : forall s,
             (forall m, s <> Sendmail m) ->
             forall g, (List.length (emails_of (tr (smtp_call net s g))) <= 0)%nat).
  { intros s Hs g. rewrite smtp_call_trace.
    destruct s; try (cbn; lia). now destruct (Hs m). }
  assert (Hcomp : forall c g,
             (List.length (emails_of (tr (compose_call net c g))) <= 0)%nat).
  { intros c g. unfold compose_call. destruct (compose net c); cbn; lia. }
  change 1%nat
    with (0 + (0 + (0 + (0 + (0 + (0 + (0 + (0 + (0 + (0 + (0 + (0 +
          (0 + (1 + (0 + 0)))))))))))))))%nat.
  apply emails_bind_le; [intros g; destruct (Py.getitem _ _); cbn; lia|]. intros dn.
  apply emails_bind_le; [intros g; cbn; lia|]. intros _.
  do 5 (apply emails_bind_le; [apply Hcomp|]; intros _).
  cbn zeta.
  do 5 (apply emails_bind_le; [apply Hstep; discriminate|]; intros _).
  apply emails_bind_le; [apply Hcomp|]. intros _.
  apply emails_bind_le; [intros g; rewrite smtp_call_trace; cbn; lia|]. intros _.
  apply emails_bind_le; [intros g; cbn; lia|]. intros _.
  apply Hstep. discriminate.
Qed.

Lemma notify_effects (room : MatrixRoom) (event : RoomMemberEvent)
      (g : Globals) (e : Effect) :
  In e (tr (notify config net room event g)) ->
  handler_effect room event g e.
Proof.
  destruct (is_join event) eqn:Hj;
    [|rewrite notify_not_join by assumption; intros []].
  rewrite notify_run by assumption.
  assert (Hu : forall e', In e' (tr (user_already_known
                                      net (state_key event)
                                      (Some (room_id room)) g)) ->
                          handler_effect room event g e').
  { intros e'. rewrite user_already_known_run. intros H.
    apply uak_loop_effects in H as [(rid & -> & Hin & Hex)|[m ->]]; [|exact I].
    split; [assumption|]. intros ->.
    assert (Ht : Py.opt_eq (Some (room_id room)) (PStr (room_id room)) = true)
      by now apply opt_eq_Some.
    congruence. }
  assert (Hn : forall e', In e' (tr (new_member config net room event g)) ->
                          handler_effect room event g e').
  { intros e'. rewrite new_member_run.
    assert (Hi : In e' (tr (invite_phase net room event g)) ->
                 handler_effect room event g e').
    { intros H. apply invite_phase_effects in H as (t & -> & Ht & _).
      now split. }
    destruct (out (invite_phase net room event g)) as [rt|x]; cbn [tr];
      [|exact Hi].
    intros H. apply in_app_or in H as [H|H]; [now apply Hi|].
    apply (email_phase_effects config net room event rt g) in H.
    destruct e' as [| | | |[]]; cbn in *; try exact I; destruct H. }
  destruct (out (user_already_known _ _ _ g)) as [[|]|x]; cbn [tr].
  - intros [<-|H]; [exact I|].
    apply in_app_or in H as [H|[<-|[]]]; [now apply Hu | exact I].
  - intros [<-|H]; [exact I|].
    apply in_app_or in H as [H|H]; [now apply Hu | now apply Hn].
  - intros [<-|H]; [exact I | now apply Hu].
Qed.

(** X6. Whatever the event and the answers of the servers, the handler
    only logs, asks for the members of watched rooms other than the
    room of the event, invites the subject of the event to resolved
    invite targets, and takes SMTP steps.  It never asks for the room
    list or a room name, never prints the diagnostic of the
    resolution, and never changes the registry. *)
Theorem handler_stays_in_bounds (room : MatrixRoom) (event : RoomMemberEvent)
        (g : Globals) :
  (forall e, In e (tr (notify config net room event g)) ->
             handler_effect room event g e)
  /\ st (notify config net room event g) = g.
Proof.
  split; [intros e; apply notify_effects | apply read_only_notify].
Qed.

Lemma emails_of_quiet (t : list Effect) :
  (forall e, In e t -> side_effect e = false) -> emails_of t = [].
Proof.
  intros H. apply project_none. intros e He.
  specialize (H e He). destruct e; try reflexivity; discriminate.
Qed.

Lemma emails_of_invite_phase (room : MatrixRoom) (event : RoomMemberEvent)
      (g : Globals) :
  emails_of (tr (invite_phase net room event g)) = [].
Proof.
  apply project_none. intros e He.
  apply invite_phase_effects in He as (t & -> & _). reflexivity.
Qed.

Lemma emails_of_email_phase (room : MatrixRoom) (event : RoomMemberEvent)
      (room_type : string) (g : Globals) :
  emails_of (tr (email_phase config net room event room_type g))
  = if existsb (String.eqb (display_name room)) (watched_rooms config)
    then emails_of (tr (send_email config net room event room_type g))
    else [].
Proof.
  rewrite email_phase_run. destruct (existsb _ _); [|reflexivity].
  cbn [tr]. unfold emails_of. rewrite project_app.
  destruct (out (send_email config net room event room_type g));
    cbn [project sendmail_of]; apply app_nil_r.
Qed.

(** X7. The handler hands at most one message to [sendmail] per
    event. *)
Theorem at_most_one_email_per_event (room : MatrixRoom)
        (event : RoomMemberEvent) (g : Globals) :
  (List.length (emails_of (tr (notify config net room event g))) <= 1)%nat.
Proof.
  destruct (is_join event) eqn:Hj;
    [|rewrite notify_not_join by assumption; cbn; lia].
  rewrite notify_run by assumption.
  assert (Hu : emails_of (tr (user_already_known net (state_key event)
                                                 (Some (room_id room)) g)) = []).
  { apply emails_of_quiet. intros e He.
    eapply (quiet_user_already_known net). exact He. }
  destruct (out (user_already_known _ _ _ g)) as [[|]|x]; cbn [tr];
    unfold emails_of in *; cbn [project sendmail_of];
    rewrite ?project_app, Hu; cbn [app project sendmail_of List.length];
    try lia.
  rewrite new_member_run.
  pose proof (emails_of_invite_phase room event g) as Hi.
  unfold emails_of in Hi.
  destruct (out (invite_phase net room event g)) as [rt|x]; cbn [tr];
    rewrite ?project_app, Hi; cbn [app List.length]; [|lia].
  pose proof (emails_of_email_phase room event rt g) as He.
  unfold emails_of in He. rewrite He.
  destruct (existsb _ _); [apply send_email_one_mail | cbn; lia].
Qed.

(** X8. The email calls the room a "space" exactly when the id of the
    room of the event equals [space_id]; a join in the space while
    [space_id] is not resolved is announced as a join of a "room". *)
Theorem email_room_type (room : MatrixRoom) (event : RoomMemberEvent)
        (g : Globals) (m : EmailMessage) :
  In (ESmtp (Sendmail m)) (tr (notify config net room event g)) ->
  msg_room_type m
  = (if Py.str_eq (room_id room) (space_id g) then "space" else "room")%string.
Proof.
  intros Hin.
  destruct (is_join event) eqn:Hj;
    [|rewrite notify_not_join in Hin by assumption; destruct Hin].
  rewrite notify_run in Hin by assumption.
  pose proof (quiet_user_already_known net (state_key event)
                                       (Some (room_id room)) g) as Hq.
  assert (Hnew : In (ESmtp (Sendmail m))
                    (tr (new_member config net room event g))).
  { destruct (out (user_already_known _ _ _ g)) as [[|]|x]; cbn [tr] in Hin;
      destruct Hin as [H|H]; try discriminate.
    - apply in_app_or in H as [H|[H|[]]]; [|discriminate].
      apply Hq in H. discriminate.
    - apply in_app_or in H as [H|H]; [|assumption].
      apply Hq in H. discriminate.
    - apply Hq in H. discriminate. }
  rewrite new_member_run in Hnew.
  pose proof (invite_phase_run net room event g) as Hrun.
  destruct (out (invite_phase net room event g)) as [rt|x] eqn:Ho;
    cbn [tr] in Hnew.
  2:{ apply invite_phase_effects in Hnew as (t & Ht & _). discriminate. }
  apply in_app_or in Hnew as [H|H].
  { apply invite_phase_effects in H as (t & Ht & _). discriminate. }
  apply (email_phase_effects config net room event rt g) in H.
  destruct H as (_ & _ & -> & _).
  rewrite Hrun in Ho.
  destruct (Py.str_eq (room_id room) (space_id g)); cbn [out] in Ho.
  - destruct (out (invite_loop _ _ _ g)); [now injection Ho | discriminate].
  - now injection Ho.
Qed.

(** X9. A join whose event content has no ["displayname"]: the handler
    gets as far as the email, takes no SMTP step, logs the [KeyError]
    and returns normally.  No email is sent for such a member. *)
Theorem join_without_displayname (room : MatrixRoom) (event : RoomMemberEvent)
        (g : Globals) (room_type : string) :
  is_join event = true ->
  out (user_already_known net (state_key event) (Some (room_id room)) g)
  = Ret false ->
  out (invite_phase net room event g) = Ret room_type ->
  In (display_name room) (watched_rooms config) ->
  Py.assoc "displayname" (content event) = None ->
  notify config net room event g
  = Run g
        (ELog (LNoticed (display_name room) (room_id room))
           :: tr (user_already_known net (state_key event)
                                     (Some (room_id room)) g)
           ++ tr (invite_phase net room event g)
           ++ [ELog (LEmailException (KeyError "displayname"))])
        (Ret tt).
Proof.
  intros Hj Hk Hi Hw Hd.
  rewrite notify_run, Hk by assumption.
  rewrite new_member_run, Hi. cbn [tr out].
  rewrite email_phase_run.
  assert (Hex : existsb (String.eqb (display_name room)) (watched_rooms config)
                = true).
  { apply existsb_exists. exists (display_name room).
    split; [assumption | apply String.eqb_refl]. }
  rewrite Hex.
  assert (Hs : send_email config net room event room_type g
               = Run g [] (Raise (KeyError "displayname"))).
  { unfold send_email. erewrite bind_raise;
      [|cbn [Py.getitem]; rewrite Hd; reflexivity].
    cbn [Py.getitem]. rewrite Hd. reflexivity. }
  rewrite Hs. reflexivity.
Qed.

End HandlerEffects.

(** ** Triples *)

Lemma hoare_bind {A B} (P : Globals -> Prop) (m : M A) (k : A -> M B)
      (R : A -> Globals -> Prop) (Q : B -> Globals -> Prop)
      (E : Globals -> Prop) :
  hoare P m R E -> (forall a, hoare (R a) (k a) Q E) -> hoare P (bind m k) Q E.
Proof.
  intros Hm Hk g HP. specialize (Hm g HP). unfold bind.
  destruct (out (m g)) as [a|e]; cbn [st out].
  - exact (Hk a _ Hm).
  - exact Hm.
Qed.

Lemma hoare_read_only {A} (P : Globals -> Prop) (m : M A)
      (Q : A -> Globals -> Prop) (E : Globals -> Prop) :
  read_only m ->
  (forall g a, P g -> out (m g) = Ret a -> Q a g) ->
  (forall g, P g -> E g) ->
  hoare P m Q E.
Proof.
  intros Hro HQ HE g HP. rewrite Hro.
  destruct (out (m g)) as [a|e] eqn:Ho; [now apply HQ | now apply HE].
Qed.

Lemma hoare_modify (P : Globals -> Prop) (f : Globals -> Globals)
      (Q : unit -> Globals -> Prop) (E : Globals -> Prop) :
  (forall g, P g -> Q tt (f g)) -> hoare P (modify f) Q E.
Proof. intros H g HP. exact (H g HP). Qed.

Lemma hoare_weaken {A} (P P' : Globals -> Prop) (m : M A)
      (Q : A -> Globals -> Prop) (E : Globals -> Prop) :
  (forall g, P' g -> P g) -> hoare P m Q E -> hoare P' m Q E.
Proof. intros H Hm g HP. apply Hm, H, HP. Qed.

Lemma hoare_for_each {A} (I : Globals -> Prop) (l : list A)
      (body : A -> M unit) :
  (forall x, In x l -> hoare I (body x) (fun _ => I) I) ->
  hoare I (for_each l body) (fun _ => I) I.
Proof.
  induction l as [|x l IH]; intros Hb.
  - intros g HI. exact HI.
  - cbn [for_each]. eapply hoare_bind; [apply Hb; now left|].
    intros ?. apply IH. intros y Hy. apply Hb. now right.
Qed.

Lemma hoare_state {A} (P Q : Globals -> Prop) (m : M A) (g : Globals) :
  hoare P m (fun _ => Q) Q -> P g -> Q (st (m g)).
Proof. intros H HP. specialize (H g HP). now destruct (out (m g)). Qed.

Lemma s_get_out (net : Net) (q : GetReq) (g : Globals) (r : Response) :
  out (s_get net q g) = Ret r -> http_get net q = Ret r.
Proof.
  unfold s_get, bind, emit, lift. cbn [st tr out].
  destruct (http_get net q); cbn; congruence.
Qed.

Lemma lift_out {A} (o : outcome A) (g : Globals) (a : A) :
  out (lift o g) = Ret a -> o = Ret a.
Proof. destruct o; cbn; congruence. Qed.

(** ** The registry that the listeners keep *)

Lemma space_in_watched (config : Config) (n : pyval) :
  Py.str_eq (space config) n = true ->
  Py.in_strs n (watched_rooms config) = true.
Proof.
  intros H. unfold watched_rooms, Py.in_strs.
  destruct (watch config) as [[|w ws]|]; cbn [app existsb]; now rewrite H.
Qed.

Section RegistryInvariant.

Variable config : Config.

Lemma populate_room_space_watched (net : Net) (rid : pyval) :
  hoare space_watched (populate_room config net rid)
        (fun _ => space_watched) space_watched.
Proof.
  unfold populate_room.
  apply hoare_bind with (R := fun _ => space_watched).
  { apply hoare_read_only; [apply read_only_s_get | auto | auto]. }
  intros r. destruct (negb (status_code r =? 200)).
  { apply hoare_read_only; [apply read_only_ret | auto | auto]. }
  apply hoare_bind with (R := fun _ => space_watched).
  { apply hoare_read_only; [apply read_only_lift | auto | auto]. }
  intros n.
  apply hoare_bind with (R := fun _ => space_watched).
  { apply hoare_read_only; [apply read_only_log | auto | auto]. }
  intros ?.
  apply hoare_bind
    with (R := fun _ g => space_watched g
                          /\ (Py.in_strs n (watched_rooms config) = true ->
                              In rid (watched_room_ids g))).
  { destruct (Py.in_strs n (watched_rooms config)).
    - apply hoare_bind with (R := fun _ => space_watched).
      { apply hoare_read_only; [apply read_only_room_members | auto | auto]. }
      intros ms. apply hoare_bind with (R := fun _ => space_watched).
      { apply hoare_read_only; [apply read_only_log | auto | auto]. }
      intros ?. apply hoare_modify. intros g Hg. split.
      + destruct Hg as [Hg|Hg]; [now left | right].
        cbn. apply in_or_app. now left.
      + intros ?. cbn. apply in_or_app. right. now left.
    - apply hoare_read_only; [apply read_only_ret | | auto].
      intros g1 v1 Hg _. split; [assumption | discriminate]. }
  intros ?.
  apply hoare_bind with (R := fun _ => space_watched).
  { destruct (Py.str_eq (space config) n) eqn:Es.
    - apply hoare_modify. intros g [_ Hin]. right. cbn.
      apply Hin. now apply space_in_watched.
    - apply hoare_read_only; [apply read_only_ret | | ]; intros; tauto. }
  intros ?. destruct (Py.in_strs n (to_invite config)).
  - apply hoare_bind with (R := fun _ => space_watched).
    { apply hoare_read_only; [apply read_only_log | auto | auto]. }
    intros ?. apply hoare_modify. intros g Hg. exact Hg.
  - apply hoare_read_only; [apply read_only_ret | auto | auto].
Qed.

Lemma populate_space_watched (net : Net) :
  hoare (fun g => space_id g = PNone) (populate_watched_room_ids config net)
        (fun _ => space_watched) space_watched.
Proof.
  unfold populate_watched_room_ids.
  assert (Hl : forall g, space_id g = PNone -> space_watched g)
    by (intros g Hg; now left).
  apply hoare_bind with (R := fun _ g => space_id g = PNone).
  { apply hoare_read_only; [apply read_only_s_get | auto | auto]. }
  intros r. destruct (negb (status_code r =? 200)).
  { apply hoare_read_only; [apply read_only_ret | auto | auto]. }
  apply hoare_bind with (R := fun _ g => space_id g = PNone).
  { apply hoare_read_only; [|auto|auto].
    apply read_only_try_except; [|intros e]; auto 6 with ro. }
  intros [ids|].
  2:{ apply hoare_read_only; [apply read_only_ret | auto | auto]. }
  apply hoare_bind with (R := fun _ g => space_id g = PNone).
  { apply hoare_modify. auto. }
  intros ?. apply hoare_bind with (R := fun _ g => space_id g = PNone).
  { apply hoare_modify. auto. }
  intros ?. apply hoare_bind with (R := fun _ => space_watched).
  { apply hoare_read_only; [apply read_only_lift | auto | auto]. }
  intros rooms. apply hoare_bind with (R := fun _ => space_watched).
  { apply hoare_for_each. intros rid _. apply populate_room_space_watched. }
  intros ?. apply hoare_bind with (R := fun _ => space_watched).
  { apply hoare_read_only; [apply read_only_get | auto | auto]. }
  intros g'. apply hoare_bind with (R := fun _ => space_watched).
  { apply hoare_read_only; [|auto|auto]. destruct (negb _); auto with ro. }
  intros ?. apply hoare_read_only; [apply read_only_ret | auto | auto].
Qed.

Lemma room_joined_space_watched (net : Net) (rid : string) :
  hoare space_watched (room_joined config net rid)
        (fun _ => space_watched) space_watched.
Proof.
  unfold room_joined.
  apply hoare_bind with (R := fun a g => space_watched g /\ a = g).
  { apply hoare_read_only; [apply read_only_get | | auto].
    intros g1 v1 Hg [= <-]. now split. }
  intros g0. destruct (Nat.eqb (List.length (watched_room_ids g0)) 0) eqn:El.
  - apply hoare_bind with (R := fun _ => space_watched).
    { apply hoare_weaken with (P := fun g => space_id g = PNone);
        [|apply hoare_weaken with (P := fun g => space_id g = PNone);
          [auto | apply populate_space_watched]].
      intros g [Hg ->]. apply Nat.eqb_eq in El.
      destruct (watched_room_ids g) eqn:Ew; [|discriminate].
      destruct Hg as [Hg|Hg]; [assumption|]. rewrite Ew in Hg. destruct Hg. }
    intros ?. apply hoare_bind with (R := fun _ => space_watched).
    { apply hoare_read_only; [apply read_only_get | auto | auto]. }
    intros g'. apply hoare_read_only; [apply read_only_log | auto | auto].
  - apply hoare_read_only; [apply read_only_ret | | ]; intros; tauto.
Qed.

Lemma listener_run_space_watched (cbs : list Callback) :
  hoare space_watched (listener_run config cbs)
        (fun _ => space_watched) space_watched.
Proof.
  unfold listener_run. apply hoare_for_each. intros [net rid|net room event] _.
  - apply room_joined_space_watched.
  - apply hoare_read_only; [apply read_only_notify | auto | auto].
Qed.

(** X10. Over any rounds of the service loop and any listener calls in
    them, whatever the servers answer and wherever an exception ends a
    round: if [space_id] is unset or among [watched_room_ids] at the
    start, as it is when the script starts, it is so at the end.  A
    resolved space is always a watched room. *)
Theorem space_id_is_watched (sessions : list (list Callback)) (g : Globals) :
  space_watched g ->
  space_watched (snd (serve config sessions g)).
Proof.
  revert g. induction sessions as [|cbs rest IH]; intros g Hg; [exact Hg|].
  cbn [serve].
  destruct (serve config rest (st (listener_run config cbs g))) as [later g']
    eqn:Es.
  cbn [snd]. change g' with (snd (later, g')). rewrite <- Es. apply IH.
  apply (hoare_state space_watched space_watched); [|assumption].
  apply listener_run_space_watched.
Qed.

Lemma callback_frozen (cb : Callback) (g : Globals) :
  watched_room_ids g <> [] ->
  st (callback config cb g) = g
  /\ forall e, In e (tr (callback config cb g)) -> resolution_only e = false.
Proof.
  intros Hw. destruct cb as [net rid|net room event]; cbn [callback].
  - unfold room_joined, bind, get. cbn [st tr out].
    destruct (watched_room_ids g) as [|w ws]; [now destruct Hw|].
    cbn. split; [reflexivity | intros e []].
  - split; [apply read_only_notify|]. intros e He.
    apply notify_effects in He.
    destruct e as [| |[| |]| |]; cbn in *; try reflexivity; destruct He.
Qed.

Lemma listener_run_frozen (cbs : list Callback) (g : Globals) :
  watched_room_ids g <> [] ->
  st (listener_run config cbs g) = g
  /\ forall e, In e (tr (listener_run config cbs g)) -> resolution_only e = false.
Proof.
  intros Hw. unfold listener_run.
  induction cbs as [|cb cbs [IHs IHt]]; [split; [reflexivity | intros e []]|].
  destruct (callback_frozen cb g Hw) as [Hs Ht].
  cbn [for_each]. unfold bind. rewrite Hs.
  destruct (out (callback config cb g)); cbn [st tr].
  - split; [assumption|].
    intros e He. apply in_app_or in He as [He|He]; auto.
  - split; [reflexivity | assumption].
Qed.

(** X11. Once [watched_room_ids] holds an id, the registry is never
    resolved again: over any rounds of the service loop and any
    listener calls, the three globals stay as they are, and no round
    asks for the room list or a room name or prints the diagnostic. *)
Theorem registry_frozen_once_resolved (sessions : list (list Callback))
        (g : Globals) :
  watched_room_ids g <> [] ->
  snd (serve config sessions g) = g
  /\ forall t e, In (Session t) (fst (serve config sessions g)) ->
                 In e t -> resolution_only e = false.
Proof.
  intros Hw. induction sessions as [|cbs rest [IHs IHt]];
    [split; [reflexivity | intros t e []]|].
  cbn [serve]. destruct (listener_run_frozen cbs g Hw) as [Hs Ht].
  rewrite Hs.
  destruct (serve config rest g) as [later g'] eqn:Es. cbn [fst snd] in *.
  split; [assumption|]. intros t e [H|H] He.
  - injection H as <-. now apply Ht.
  - apply in_app_or in H as [H|H]; [|now apply (IHt t)].
    destruct (out (listener_run config cbs g)); cbn in H;
      repeat destruct H as [H|H]; try discriminate; destruct H.
Qed.

End RegistryInvariant.

(** ** What a resolution leaves in the registry *)

Section ResolutionEffects.

Variable config : Config.
Variable net : Net.

Lemma only_s_get (P : Effect -> Prop) (q : GetReq) :
  P (EGet q) -> emits_only P (s_get net q).
Proof.
  intros H. unfold s_get. apply only_bind; [now apply only_emit|].
  intros ?. apply only_lift.
Qed.

Lemma only_room_members (P : Effect -> Prop) (rid : pyval) :
  (forall q, P (EGet q)) -> (forall m, P (ELog m)) ->
  emits_only P (room_members net rid).
Proof.
  intros Hg Hl g e He.
  apply room_members_effects in He as [->|[m ->]]; auto.
Qed.

Lemma only_populate_room (P : Effect -> Prop) (rid : pyval) :
  (forall q, P (EGet q)) -> (forall m, P (ELog m)) ->
  emits_only P (populate_room config net rid).
Proof.
  intros Hg Hl. unfold populate_room.
  apply only_bind; [now apply only_s_get|]. intros r.
  apply only_if; [apply only_ret|].
  apply only_bind; [apply only_lift|]. intros n.
  apply only_bind; [now apply only_log|]. intros ?.
  apply only_bind.
  { apply only_if; [|apply only_ret].
    apply only_bind; [now apply only_room_members|]. intros ms.
    apply only_bind; [now apply only_log | intros ?; apply only_modify]. }
  intros ?. apply only_bind.
  { apply only_if; [apply only_modify | apply only_ret]. }
  intros ?. apply only_if; [|apply only_ret].
  apply only_bind; [now apply only_log | intros ?; apply only_modify].
Qed.

Lemma only_populate (P : Effect -> Prop) :
  (forall q, P (EGet q)) -> (forall m, P (ELog m)) -> P EPrintCannotFind ->
  emits_only P (populate_watched_room_ids config net).
Proof.
  intros Hg Hl Hp. unfold populate_watched_room_ids.
  apply only_bind; [now apply only_s_get|]. intros r.
  apply only_if; [apply only_ret|].
  apply only_bind.
  { apply only_try_except.
    - apply only_bind; [apply only_lift | intros ?; apply only_ret].
    - intros x. apply only_bind; [now apply only_log | intros ?; apply only_ret]. }
  intros [ids|]; [|apply only_ret].
  apply only_bind; [apply only_modify|]. intros ?.
  apply only_bind; [apply only_modify|]. intros ?.
  apply only_bind; [apply only_lift|]. intros rooms.
  apply only_bind.
  { apply only_for_each. intros rid _. now apply only_populate_room. }
  intros ?. apply only_bind; [apply only_get|]. intros g'.
  apply only_bind; [|intros ?; apply only_ret].
  apply only_if; [now apply only_emit | apply only_ret].
Qed.

(** X12. The resolution and the startup listener only read: whatever
    the homeserver answers, they make no invite request and take no
    SMTP step. *)
Theorem resolution_only_reads (rid : string) (g : Globals) :
  (forall e, In e (tr (populate_watched_room_ids config net g)) ->
             resolution_effect e)
  /\ (forall e, In e (tr (room_joined config net rid g)) ->
                resolution_effect e).
Proof.
  assert (Hp : emits_only resolution_effect
                          (populate_watched_room_ids config net)).
  { apply only_populate; intros; exact I. }
  split; [apply Hp|].
  assert (Hr : emits_only resolution_effect (room_joined config net rid)).
  { unfold room_joined. apply only_bind; [apply only_get|]. intros g0.
    apply only_if; [|apply only_ret].
    apply only_bind; [exact Hp|]. intros ?.
    apply only_bind; [apply only_get|]. intros g1.
    apply only_log. exact I. }
  apply Hr.
Qed.

Lemma populate_room_resolved_from (rooms : list pyval) (rid : pyval) :
  In rid rooms ->
  hoare (resolved_from config net rooms) (populate_room config net rid)
        (fun _ => resolved_from config net rooms)
        (resolved_from config net rooms).
Proof.
  intros Hin. unfold populate_room.
  apply hoare_bind
    with (R := fun r g => resolved_from config net rooms g
                          /\ http_get net (RoomName rid) = Ret r).
  { apply hoare_read_only; [apply read_only_s_get | | auto].
    intros g1 r1 Hg Ho. split; [assumption|]. now apply s_get_out in Ho. }
  intros r. destruct (status_code r =? 200) eqn:Es; cbn [negb].
  2:{ apply hoare_read_only; [apply read_only_ret | | ]; intros; tauto. }
  apply hoare_bind
    with (R := fun n g => resolved_from config net rooms g
                          /\ resolved_name net rid = Some n).
  { apply hoare_read_only; [apply read_only_lift | | intros; tauto].
    intros g1 n1 [Hg Hr] Ho. split; [assumption|].
    apply lift_out in Ho. unfold resolved_name. now rewrite Hr, Es, Ho. }
  intros n.
  apply hoare_bind
    with (R := fun _ g => resolved_from config net rooms g
                          /\ resolved_name net rid = Some n).
  { apply hoare_read_only; [apply read_only_log | | ]; intros; tauto. }
  intros ?.
  apply hoare_bind
    with (R := fun _ g => resolved_from config net rooms g
                          /\ resolved_name net rid = Some n).
  { destruct (Py.in_strs n (watched_rooms config)) eqn:Ew.
    - apply hoare_bind
        with (R := fun _ g => resolved_from config net rooms g
                              /\ resolved_name net rid = Some n).
      { apply hoare_read_only; [apply read_only_room_members | | ];
          intros; tauto. }
      intros ms.
      apply hoare_bind
        with (R := fun _ g => resolved_from config net rooms g
                              /\ resolved_name net rid = Some n).
      { apply hoare_read_only; [apply read_only_log | | ]; intros; tauto. }
      intros ?. apply hoare_modify. intros g [[Hw Hi] Hn].
      split; [|assumption]. split; [|exact Hi]. cbn.
      apply Forall_app. split; [assumption|]. constructor; [|constructor].
      split; [assumption|]. unfold named_in. now rewrite Hn.
    - apply hoare_read_only; [apply read_only_ret | | ]; intros; tauto. }
  intros ?.
  apply hoare_bind
    with (R := fun _ g => resolved_from config net rooms g
                          /\ resolved_name net rid = Some n).
  { destruct (Py.str_eq (space config) n).
    - apply hoare_modify. intros g [[Hw Hi] Hn]. now repeat split.
    - apply hoare_read_only; [apply read_only_ret | | ]; intros; tauto. }
  intros ?. destruct (Py.in_strs n (to_invite config)) eqn:Et.
  - apply hoare_bind
      with (R := fun _ g => resolved_from config net rooms g
                            /\ resolved_name net rid = Some n).
    { apply hoare_read_only; [apply read_only_log | | ]; intros; tauto. }
    intros ?. apply hoare_modify. intros g [[Hw Hi] Hn].
    split; [exact Hw|]. cbn.
    apply Forall_app. split; [assumption|]. constructor; [|constructor].
    split; [assumption|]. unfold named_in. now rewrite Hn.
  - apply hoare_read_only; [apply read_only_ret | | ]; intros; tauto.
Qed.

(** X13. A resolution that got the room list: whatever happens in its
    loop, an exception included, afterwards every id in
    [watched_room_ids] is a room of that list whose name query gave a
    watched name, and every id in [to_invite_ids] a room of that list
    whose name query gave an invite name.  Nothing of the former lists
    is left, and a list that cannot be iterated leaves both empty. *)
Theorem registry_holds_only_configured_rooms (g : Globals) (r : Response)
        (ids : pyval) :
  http_get net JoinedRooms = Ret r ->
  status_code r = 200 ->
  Py.obind (json r) (fun v => Py.getitem v "joined_rooms") = Ret ids ->
  resolved_from config net
                match Py.iter ids with Ret rooms => rooms | Raise _ => [] end
                (st (populate_watched_room_ids config net g)).
Proof.
  intros Hr Hs Hids.
  unfold populate_watched_room_ids. rewrite (s_get_bind net _ _ g r Hr).
  cbn [st tr out]. apply Z.eqb_eq in Hs. rewrite Hs. cbn [negb].
  erewrite bind_run;
    [|unfold try_except, bind; rewrite Hids; cbn; reflexivity].
  cbn beta iota. cbn [st].
  set (rooms := match Py.iter ids with Ret rooms => rooms | Raise _ => [] end).
  apply (hoare_state (fun _ => True) (resolved_from config net rooms));
    [|exact I].
  apply hoare_bind with (R := fun _ g => watched_room_ids g = []).
  { apply hoare_modify. reflexivity. }
  intros ?.
  apply hoare_bind
    with (R := fun _ g => watched_room_ids g = [] /\ to_invite_ids g = []).
  { apply hoare_modify. intros g1 Hg. now split. }
  intros ?.
  assert (Hempty : forall g1, watched_room_ids g1 = [] /\ to_invite_ids g1 = [] ->
                              resolved_from config net rooms g1).
  { intros g1 [Hw Hi]. unfold resolved_from. rewrite Hw, Hi. now split. }
  apply hoare_bind
    with (R := fun l g => resolved_from config net rooms g /\ rooms = l).
  { apply hoare_read_only; [apply read_only_lift | | exact Hempty].
    intros g1 l Hg Ho. apply lift_out in Ho. split; [now apply Hempty|].
    subst rooms. now rewrite Ho. }
  intros l.
  apply hoare_bind with (R := fun _ => resolved_from config net rooms).
  { apply hoare_weaken
      with (P := fun g => resolved_from config net rooms g /\ rooms = l);
      [auto|].
    intros g1 [Hg Hl]. revert g1 Hg. rewrite <- Hl.
    apply hoare_for_each. intros rid Hin.
    now apply populate_room_resolved_from. }
  intros ?.
  apply hoare_bind with (R := fun _ => resolved_from config net rooms).
  { apply hoare_read_only; [apply read_only_get | auto | auto]. }
  intros g'.
  apply hoare_bind with (R := fun _ => resolved_from config net rooms).
  { apply hoare_read_only; [|auto|auto]. destruct (negb _); auto with ro. }
  intros ?. apply hoare_read_only; [apply read_only_ret | auto | auto].
Qed.

(** X14. A resolution that runs to its end prints the diagnostic
    exactly when the number of joined rooms with a watched name
    differs from the number of watched names.  The test counts: two
    rooms under one watched name make up for a name without room. *)
Theorem diagnostic_compares_counts (g : Globals) (r : Response)
        (ids : pyval) (rooms : list pyval) :
  http_get net JoinedRooms = Ret r ->
  status_code r = 200 ->
  Py.obind (json r) (fun v => Py.getitem v "joined_rooms") = Ret ids ->
  Py.iter ids = Ret rooms ->
  Forall (resolvable config net) rooms ->
  In EPrintCannotFind (tr (populate_watched_room_ids config net g))
  <-> List.length (filter (named_in net (watched_rooms config)) rooms)
      <> List.length (watched_rooms config).
Proof.
  intros Hr Hs Hids Hit Hall.
  unfold populate_watched_room_ids. rewrite (s_get_bind net _ _ g r Hr).
  cbn [st tr out]. apply Z.eqb_eq in Hs. rewrite Hs. cbn [negb].
  erewrite bind_run;
    [|unfold try_except, bind; rewrite Hids; cbn; reflexivity].
  cbn beta iota.
  rewrite (bind_run (modify (set_watched_room_ids [])) _ g _ [] tt eq_refl).
  rewrite (bind_run (modify (set_to_invite_ids [])) _ _ _ [] tt eq_refl).
  rewrite Hit.
  rewrite (bind_run (lift (Ret rooms)) _ _ _ [] rooms eq_refl).
  cbn beta.
  destruct (populate_loop_run
              config net rooms
              (set_to_invite_ids [] (set_watched_room_ids [] g)) Hall)
    as [t H].
  assert (Ht : forall e, In e t -> e <> EPrintCannotFind).
  { intros e He.
    assert (Ho : emits_only (fun e => e <> EPrintCannotFind)
                            (for_each rooms (populate_room config net))).
    { apply only_for_each. intros rid _.
      apply only_populate_room; discriminate. }
    apply (Ho (set_to_invite_ids [] (set_watched_room_ids [] g))).
    now rewrite H. }
  rewrite (bind_run _ _ _ _ t tt H).
  rewrite (bind_run get _ _ _ [] _ eq_refl).
  cbn [st tr out set_watched_room_ids set_to_invite_ids space_id
       watched_room_ids to_invite_ids app].
  destruct (Nat.eqb (List.length (watched_rooms config))
                    (List.length (filter (named_in net (watched_rooms config))
                                         rooms))) eqn:El; cbn.
  - apply Nat.eqb_eq in El. split; [|intros Hne; now destruct Hne].
    intros [H0|H0]; [discriminate|].
    apply in_app_or in H0 as [H0|[]]. now destruct (Ht _ H0).
  - apply Nat.eqb_neq in El. split; [intros _; congruence|].
    intros _. right. apply in_or_app. right. now left.
Qed.

End ResolutionEffects.

(** ** Order of the watched rooms, and the email of a new member *)

Section OrderAndEmail.

Variable config : Config.
Variable net : Net.

Lemma listed_any_globals (user : string) (rid : pyval) (g g' : Globals) :
  listed net user rid g -> listed net user rid g'.
Proof.
  intros (ms & Hms & Hin). exists ms. split; [|assumption].
  rewrite room_members_run in *.
  destruct (http_get net (Members rid)) as [r|e]; [|exact Hms].
  destruct (status_code r =? 200); [|exact Hms].
  destruct (chunk_user_ids r); exact Hms.
Qed.

Lemma uak_loop_value (user : string) (excl : option string)
      (rooms : list pyval) (g : Globals) :
  (forall rid, In rid rooms -> Py.opt_eq excl rid = false ->
               answers net (Members rid)) ->
  exists b,
    out (user_already_known_loop net user excl rooms g) = Ret b
    /\ (b = true <->
        exists rid, In rid rooms /\ Py.opt_eq excl rid = false
                    /\ listed net user rid g).
Proof.
  intros Hans.
  destruct (uak_loop_spec net user excl rooms g Hans) as (b & Hb & Ht & _).
  exists b. split; [assumption|]. split.
  - intros Hbt. destruct (Ht Hbt) as (pre & rid & post & -> & Hex & Hl & _).
    exists rid. repeat split; try assumption. apply in_or_app. right. now left.
  - intros (rid & Hin & Hex & Hl). destruct b; [reflexivity|].
    exfalso. exact (uak_loop_false net user excl _ g Hb rid Hin Hex Hl).
Qed.

(** X15. With the membership queries answered, the answer of
    [user_already_known] does not depend on the order of
    [watched_room_ids]: two registries whose watched ids are
    permutations of each other give the same answer. *)
Theorem user_already_known_any_order (user : string) (excl : option string)
        (g g' : Globals) :
  Permutation (watched_room_ids g) (watched_room_ids g') ->
  (forall rid, In rid (watched_room_ids g) -> Py.opt_eq excl rid = false ->
               answers net (Members rid)) ->
  out (user_already_known net user excl g)
  = out (user_already_known net user excl g')
  /\ exists b, out (user_already_known net user excl g) = Ret b.
Proof.
  intros Hperm Hans. rewrite !user_already_known_run.
  destruct (uak_loop_value user excl (watched_room_ids g) g Hans)
    as (b & Hb & Hiff).
  destruct (uak_loop_value user excl (watched_room_ids g') g')
    as (b' & Hb' & Hiff').
  { intros rid Hin. apply Hans. eapply Permutation_in; [|exact Hin].
    now apply Permutation_sym. }
  rewrite Hb, Hb'. split; [|now exists b]. f_equal.
  apply eq_true_iff_eq. rewrite Hiff, Hiff'. split.
  - intros (rid & Hin & Hex & Hl). exists rid. repeat split; try assumption.
    + eapply Permutation_in; eassumption.
    + eapply listed_any_globals; eassumption.
  - intros (rid & Hin & Hex & Hl). exists rid. repeat split; try assumption.
    + eapply Permutation_in; [|exact Hin]. now apply Permutation_sym.
    + eapply listed_any_globals; eassumption.
Qed.

Lemma smtp_call_ok (s : MailStep) (g : Globals) :
  smtp net s = None -> smtp_call net s g = Run g [ESmtp s] (Ret tt).
Proof.
  intros H. unfold smtp_call, bind, emit. cbn [st tr out]. now rewrite H.
Qed.

Lemma bind_compose_call {B} (c : ComposeStep) (k : unit -> M B) (g : Globals) :
  bind (compose_call net c) k g
  = match compose net c with
    | Some e => Run g [] (Raise e)
    | None => k tt g
    end.
Proof.
  unfold bind, compose_call.
  destruct (compose net c); cbn; [reflexivity|]. now destruct (k tt g).
Qed.

(** X16. A join by a user found in no other watched room, in a room
    whose display name is a watched name, the space name included,
    with the invitation phase not raising, a ["displayname"] in the
    event, an email library that builds the message without an
    exception and a mail server that accepts every step: the handler
    sends exactly one message, to the configured address, about this
    user and this room, and returns normally. *)
Theorem new_member_is_announced (room : MatrixRoom) (event : RoomMemberEvent)
        (g : Globals) (room_type : string) (dn : pyval) :
  is_join event = true ->
  out (user_already_known net (state_key event) (Some (room_id room)) g)
  = Ret false ->
  out (invite_phase net room event g) = Ret room_type ->
  In (display_name room) (watched_rooms config) ->
  Py.assoc "displayname" (content event) = Some dn ->
  (forall c, compose net c = None) ->
  (forall s, smtp net s = None) ->
  emails_of (tr (notify config net room event g))
  = [ {| msg_displayname := dn;
         msg_user := state_key event;
         msg_room_type := room_type;
         msg_room_name := display_name room;
         msg_subject := email_subject config;
         msg_from := email_from config;
         msg_to := email_to config;
         msg_replyto := email_replyto config |} ]
  /\ out (notify config net room event g) = Ret tt
  /\ In (space config) (watched_rooms config).
Proof.
  intros Hj Hk Hi Hw Hd Hcomp Hsmtp.
  rewrite notify_run, Hk by assumption. cbn [tr out].
  rewrite new_member_run, Hi. cbn [tr out].
  split; [|split; [reflexivity|]].
  2:{ unfold watched_rooms. destruct (watch config) as [[|w ws]|]; now left. }
  unfold emails_of. cbn [project sendmail_of]. rewrite !project_app.
  rewrite (project_none sendmail_of (tr (user_already_known _ _ _ g))).
  2:{ intros e He. apply side_effect_projections.
      eapply (quiet_user_already_known net). exact He. }
  rewrite (project_none sendmail_of (tr (invite_phase net room event g))).
  2:{ intros e He. apply invite_phase_effects in He as (t & -> & _).
      reflexivity. }
  rewrite email_phase_run.
  assert (Hex : existsb (String.eqb (display_name room)) (watched_rooms config)
                = true).
  { apply existsb_exists. exists (display_name room).
    split; [assumption | apply String.eqb_refl]. }
  rewrite Hex. cbn [tr app].
  unfold send_email.
  erewrite bind_run; [|cbn [Py.getitem]; rewrite Hd; reflexivity].
  erewrite bind_run; [|reflexivity].
  do 5 (rewrite bind_compose_call, Hcomp).
  cbn zeta.
  do 5 (erewrite bind_run; [|apply smtp_call_ok, Hsmtp]).
  rewrite bind_compose_call, Hcomp.
  erewrite bind_run; [|apply smtp_call_ok, Hsmtp].
  erewrite bind_run; [|reflexivity].
  rewrite (smtp_call_ok _ _ (Hsmtp Quit)).
  reflexivity.
Qed.

Lemma send_email_smtp_composed (room : MatrixRoom) (event : RoomMemberEvent)
      (room_type : string) (g : Globals) (s : MailStep) :
  In (ESmtp s) (tr (send_email config net room event room_type g)) ->
  exists dn,
    Py.assoc "displayname" (content event) = Some dn
    /\ compose net (SetContent dn (state_key event) room_type
                               (display_name room)) = None
    /\ compose net (SetHeader "Subject" (Some (email_subject config))) = None
    /\ compose net (SetHeader "From" (Some (email_from config))) = None
    /\ compose net (SetHeader "To" (Some (email_to config))) = None
    /\ compose net (SetHeader "Reply-To" (email_replyto config)) = None.
Proof.
  unfold send_email. cbn [Py.getitem].
  destruct (Py.assoc "displayname" (content event)) as [dn|] eqn:Hd.
  2:{ erewrite bind_raise; [|reflexivity]. intros []. }
  erewrite bind_run; [|reflexivity].
  erewrite bind_run; [|reflexivity].
  cbn [app].
  rewrite bind_compose_call.
  destruct (compose net (SetContent _ _ _ _)) eqn:E1;
    [intros [H|[]]; discriminate|].
  rewrite bind_compose_call.
  destruct (compose net (SetHeader "Subject" _)) eqn:E2;
    [intros [H|[]]; discriminate|].
  rewrite bind_compose_call.
  destruct (compose net (SetHeader "From" _)) eqn:E3;
    [intros [H|[]]; discriminate|].
  rewrite bind_compose_call.
  destruct (compose net (SetHeader "To" _)) eqn:E4;
    [intros [H|[]]; discriminate|].
  rewrite bind_compose_call.
  destruct (compose net (SetHeader "Reply-To" _)) eqn:E5;
    [intros [H|[]]; discriminate|].
  intros _. exists dn. repeat split; assumption.
Qed.

(** X17. The handler takes an SMTP step only after the message was
    built: the event has a ["displayname"], and setting the body and
    each of the four headers went through.  If the email library
    raises there, as it does for a line break inside a header value,
    the mail server is not contacted. *)
Theorem smtp_only_after_composition (room : MatrixRoom)
        (event : RoomMemberEvent) (g : Globals) (s : MailStep) :
  In (ESmtp s) (tr (notify config net room event g)) ->
  exists dn room_type,
    out (invite_phase net room event g) = Ret room_type
    /\ Py.assoc "displayname" (content event) = Some dn
    /\ compose net (SetContent dn (state_key event) room_type
                               (display_name room)) = None
    /\ compose net (SetHeader "Subject" (Some (email_subject config))) = None
    /\ compose net (SetHeader "From" (Some (email_from config))) = None
    /\ compose net (SetHeader "To" (Some (email_to config))) = None
    /\ compose net (SetHeader "Reply-To" (email_replyto config)) = None.
Proof.
  intros Hin.
  destruct (is_join event) eqn:Hj;
    [|rewrite notify_not_join in Hin by assumption; destruct Hin].
  rewrite notify_run in Hin by assumption.
  pose proof (quiet_user_already_known net (state_key event)
                                       (Some (room_id room)) g) as Hq.
  assert (Hnew : In (ESmtp s) (tr (new_member config net room event g))).
  { destruct (out (user_already_known _ _ _ g)) as [[|]|x]; cbn [tr] in Hin;
      destruct Hin as [H|H]; try discriminate.
    - apply in_app_or in H as [H|[H|[]]]; [|discriminate].
      apply Hq in H. discriminate.
    - apply in_app_or in H as [H|H]; [|assumption].
      apply Hq in H. discriminate.
    - apply Hq in H. discriminate. }
  rewrite new_member_run in Hnew.
  destruct (out (invite_phase net room event g)) as [rt|x] eqn:Ho;
    cbn [tr] in Hnew.
  2:{ apply invite_phase_effects in Hnew as (t & Ht & _). discriminate. }
  apply in_app_or in Hnew as [H|H].
  { apply invite_phase_effects in H as (t & Ht & _). discriminate. }
  rewrite email_phase_run in H.
  destruct (existsb _ _); [|destruct H]. cbn [tr] in H.
  apply in_app_or in H as [H|H].
  - destruct (send_email_smtp_composed room event rt g s H) as (dn & Hd).
    exists dn, rt. split; [reflexivity | exact Hd].
  - destruct (out (send_email config net room event rt g));
      [destruct H | destruct H as [H|[]]; discriminate].
Qed.

End OrderAndEmail.

(** ** The further properties, evaluated *)

(** X3, evaluated: bob is a member of RoomA, and is lost with the
    entry that has no ["user_id"]. *)
Lemma room_members_all_or_nothing_witness :
  exists e,
    room_members Scenario.net_bad_entry (PStr "!a") Demo.resolved
    = Run Demo.resolved
          [EGet (Members (PStr "!a")); ELog (LRoomMembers e)] (Ret []).
Proof.
  apply (room_members_all_or_nothing
           Scenario.net_bad_entry (PStr "!a") Demo.resolved
           Scenario.bad_entry_response
           (PDict [("chunk", PList Scenario.bad_entry_chunk)])
           Scenario.bad_entry_chunk); try reflexivity.
  exists (PDict [("type", PStr "m.room.member")]). split.
  - right. now left.
  - intros u. discriminate.
Defined.

(** X4, evaluated: a ["chunk"] that is an object keyed by user id. *)
Lemma room_members_chunk_not_a_list_witness :
  out (room_members Scenario.net_keyed_chunk (PStr "!a") Demo.resolved) = Ret []
  /\ st (room_members Scenario.net_keyed_chunk (PStr "!a") Demo.resolved)
     = Demo.resolved.
Proof.
  apply (room_members_chunk_not_a_list
           Scenario.net_keyed_chunk (PStr "!a") Demo.resolved
           Scenario.keyed_response
           (PDict [("chunk", PDict [("@bob", PDict [])])])
           (PDict [("@bob", PDict [])])); try reflexivity.
  intros l. discriminate.
Defined.

(** X8, evaluated: carol joins the space before any resolution; the
    email speaks of a room. *)
Lemma email_room_type_witness :
  msg_room_type (Demo.mail_about "@carol" "room" "Space")
  = (if Py.str_eq (room_id Demo.the_space) (space_id initial_globals)
     then "space" else "room")%string.
Proof.
  apply (email_room_type Demo.config Demo.net Demo.the_space
                         (Demo.joins "@carol") initial_globals).
  vm_compute. do 7 right. left. reflexivity.
Defined.

(** X9, evaluated: erin, who has no display name, joins RoomA. *)
Lemma join_without_displayname_witness :
  notify Demo.config Demo.net Demo.room_a (Scenario.joins_unnamed "@erin")
         Demo.resolved
  = Run Demo.resolved
        (ELog (LNoticed "RoomA" "!a")
           :: tr (user_already_known Demo.net "@erin" (Some "!a") Demo.resolved)
           ++ tr (invite_phase Demo.net Demo.room_a
                               (Scenario.joins_unnamed "@erin") Demo.resolved)
           ++ [ELog (LEmailException (KeyError "displayname"))])
        (Ret tt).
Proof.
  apply (join_without_displayname
           Demo.config Demo.net Demo.room_a (Scenario.joins_unnamed "@erin")
           Demo.resolved "room").
  - reflexivity.
  - reflexivity.
  - reflexivity.
  - right. now left.
  - reflexivity.
Defined.

(** X10, evaluated: two rounds from the start of the script. *)
Lemma space_id_is_watched_witness :
  space_watched (snd (serve Demo.config Scenario.sessions initial_globals)).
Proof.
  apply (space_id_is_watched Demo.config Scenario.sessions initial_globals).
  left. reflexivity.
Defined.

(** X11, evaluated: the same rounds on a resolved registry. *)
Lemma registry_frozen_once_resolved_witness :
  snd (serve Demo.config Scenario.sessions Demo.resolved) = Demo.resolved
  /\ forall t e,
      In (Session t) (fst (serve Demo.config Scenario.sessions Demo.resolved)) ->
      In e t -> resolution_only e = false.
Proof.
  apply (registry_frozen_once_resolved Demo.config Scenario.sessions
                                       Demo.resolved).
  discriminate.
Defined.

(** X13, evaluated: a resolution after the rename of the space, on the
    registry of an earlier resolution. *)
Lemma registry_holds_only_configured_rooms_witness :
  resolved_from Demo.config Demo.net_renamed Demo.joined_rooms
                (st (populate_watched_room_ids Demo.config Demo.net_renamed
                                               Demo.resolved)).
Proof.
  apply (registry_holds_only_configured_rooms
           Demo.config Demo.net_renamed Demo.resolved
           Scenario.room_list_response (PList Demo.joined_rooms));
    reflexivity.
Defined.

(** X14, evaluated: after the rename one watched name has no room, and
    the diagnostic is printed. *)
Lemma diagnostic_compares_counts_witness :
  In EPrintCannotFind
     (tr (populate_watched_room_ids Demo.config Demo.net_renamed Demo.resolved))
  <-> List.length (filter (named_in Demo.net_renamed
                                    (watched_rooms Demo.config))
                          Demo.joined_rooms)
      <> List.length (watched_rooms Demo.config).
Proof.
  apply (diagnostic_compares_counts
           Demo.config Demo.net_renamed Demo.resolved
           Scenario.room_list_response (PList Demo.joined_rooms)
           Demo.joined_rooms); try reflexivity.
  repeat constructor;
    (eexists; split; [reflexivity|]; split;
     [intros _; eexists; reflexivity | intros _; eexists; reflexivity]).
Defined.

(** X15, evaluated: the watched rooms in the other order. *)
Lemma user_already_known_any_order_witness :
  out (user_already_known Demo.net "@bob" (Some "!space") Demo.resolved)
  = out (user_already_known Demo.net "@bob" (Some "!space")
                            Scenario.resolved_reversed)
  /\ exists b,
      out (user_already_known Demo.net "@bob" (Some "!space") Demo.resolved)
      = Ret b.
Proof.
  apply (user_already_known_any_order
           Demo.net "@bob" (Some "!space") Demo.resolved
           Scenario.resolved_reversed).
  - apply perm_swap.
  - intros rid [<-|[<-|[]]] _; eexists; reflexivity.
Defined.

(** X16, evaluated: carol, new, joins RoomA. *)
Lemma new_member_is_announced_witness :
  emails_of (tr (notify Demo.config Demo.net Demo.room_a (Demo.joins "@carol")
                        Demo.resolved))
  = [Demo.mail_about "@carol" "room" "RoomA"]
  /\ out (notify Demo.config Demo.net Demo.room_a (Demo.joins "@carol")
                 Demo.resolved) = Ret tt
  /\ In (space Demo.config) (watched_rooms Demo.config).
Proof.
  apply (new_member_is_announced
           Demo.config Demo.net Demo.room_a (Demo.joins "@carol")
           Demo.resolved "room" (PStr "Someone")).
  - reflexivity.
  - reflexivity.
  - reflexivity.
  - right. now left.
  - reflexivity.
  - reflexivity.
  - reflexivity.
Defined.

(** X17, evaluated: the connection to the mail server for carol's join
    of RoomA. *)
Lemma smtp_only_after_composition_witness :
  exists dn room_type,
    out (invite_phase Demo.net Demo.room_a (Demo.joins "@carol") Demo.resolved)
    = Ret room_type
    /\ Py.assoc "displayname" (content (Demo.joins "@carol")) = Some dn
    /\ compose Demo.net (SetContent dn "@carol" room_type "RoomA") = None
    /\ compose Demo.net (SetHeader "Subject" (Some "New member")) = None
    /\ compose Demo.net (SetHeader "From" (Some "bot@example.org")) = None
    /\ compose Demo.net (SetHeader "To" (Some "admin@example.org")) = None
    /\ compose Demo.net (SetHeader "Reply-To" None) = None.
Proof.
  apply (smtp_only_after_composition
           Demo.config Demo.net Demo.room_a (Demo.joins "@carol")
           Demo.resolved Connect).
  vm_compute. do 3 right. left. reflexivity.
Defined.

(** The library refuses the subject: the exception is logged and no
    SMTP step is taken. *)
Lemma refused_header_sends_nothing :
  notify Demo.config Scenario.net_header_refused Demo.room_a
         (Demo.joins "@carol") Demo.resolved
  = Run Demo.resolved
        [ELog (LNoticed "RoomA" "!a");
         EGet (Members (PStr "!space"));
         ELog (LNewMember (PStr "Someone") "@carol" "room" "RoomA");
         ELog (LEmailException ValueError)]
        (Ret tt).
Proof. reflexivity. Qed.
